(** * Verification of the transcription gateway (mock-live-transcribe-server)

    Shallow embedding of the TypeScript sources: the usage store and the
    transcribe service (services/usageService.ts, services/trascribeService.ts),
    the [SoftLock] flag (util/lock), the frame id codec (util/buffer), the two
    [Queue] implementations (util/queue), the session registry and message
    handling (ws/wsTranscribe.ts) and the dispatcher loop
    ([processQueue] / [queueRunner]). *)

From Stdlib Require Import ZArith Lia.
From stdpp Require Import base list gmap strings.

Open Scope Z_scope.

(** UserId is a tagged string (server/types.ts). *)
Definition UserId := string.

(* ------------------------------------------------------------------ *)
(** ** Close codes and the close reason (ws/wsTranscribe.ts) *)

Module Close.

Inductive WsCloseCode :=
  | Normal | GoingAway | ProtocolError | UnsupportedData | NoStatusReceived
  | AbnormalClosure | InvalidData | PolicyViolation | MessageTooLarge
  | UnexpectedError | ServiceRestart | ServiceUnavailable | Timeout.

Definition ws_code (c : WsCloseCode) : Z :=
  match c with
  | Normal => 1000 | GoingAway => 1001 | ProtocolError => 1002
  | UnsupportedData => 1003 | NoStatusReceived => 1005
  | AbnormalClosure => 1006 | InvalidData => 1007 | PolicyViolation => 1008
  | MessageTooLarge => 1009 | UnexpectedError => 1011
  | ServiceRestart => 1012 | ServiceUnavailable => 1013 | Timeout => 3008
  end.

Inductive InternalErrorCode :=
  | ExceededAllocatedUsageError | TimeoutError | AbortedError
  | ConnectionReplacedError | Unauthorized | ShuttingDown | NotReady
  | InvalidDataCode | ServerError.

Definition internal_code (c : InternalErrorCode) : Z :=
  match c with
  | ExceededAllocatedUsageError => 0 | TimeoutError => 1 | AbortedError => 2
  | ConnectionReplacedError => 3 | Unauthorized => 4 | ShuttingDown => 5
  | NotReady => 6 | InvalidDataCode => 7 | ServerError => 99
  end.

(** [CloseReasonObj = { error: unknown; code: InternalErrorCode }] *)
Record CloseReasonObj := { cr_error : string; cr_code : InternalErrorCode }.

End Close.

(* ------------------------------------------------------------------ *)
(** ** Usage store (services/usageService.ts) *)

Module Usage.

Record UsageData := { remainingMs : Z; totalUsedMs : Z }.

Definition createUsage (remaining : Z) : UsageData :=
  {| remainingMs := remaining; totalUsedMs := 0 |}.

Definition STARTING_USAGE_LIMIT_MS : Z := 1000.

(** [MEMORY_STORAGE: Map<UserId, UsageData>] *)
Abbreviation Store := (gmap UserId UsageData).

(** [MEMORY_STORAGE.get(userId) ?? createUsage(0)] *)
Definition _getUsage (s : Store) (u : UserId) : UsageData :=
  default (createUsage 0) (s !! u).

(** [getUsage] awaits a delay and reads the record. *)
Definition getUsage (s : Store) (u : UserId) : UsageData := _getUsage s u.

Definition updateUsage (s : Store) (u : UserId) (usedMs : Z) : Store :=
  let usage := _getUsage s u in
  <[u := {| totalUsedMs := totalUsedMs usage + usedMs;
            remainingMs := Z.max (remainingMs usage - usedMs) 0 |}]> s.

(** A sequence of [updateUsage] calls for one user. *)
Definition updateUsageAll (s : Store) (u : UserId) (us : list Z) : Store :=
  foldl (fun s x => updateUsage s u x) s us.

End Usage.

(* ------------------------------------------------------------------ *)
(** ** Transcribe service (services/trascribeService.ts) *)

Module Transcribe.
Import Usage.

Definition BYTES_PER_WORD : Z := 16000.
Definition MS_PER_WORD : Z := 250.

(** [Math.ceil(a / b)] for integers [a] and [b > 0]. *)
Definition ceil_div (a b : Z) : Z := - ((- a) / b).

(** [Math.ceil(audioPacket.length / BYTES_PER_WORD)] *)
Definition fakeSpeechWordCount (len : nat) : Z :=
  ceil_div (Z.of_nat len) BYTES_PER_WORD.

(** [Math.ceil(wordCount * MS_PER_WORD)]; the product is an integer. *)
Definition fakeProcessTime (wordCount : Z) : Z := wordCount * MS_PER_WORD.

Definition estimateUsageMs (len : nat) : Z :=
  fakeProcessTime (fakeSpeechWordCount len).

Record TranscribeResult := {
  transcript : string;
  usageUsedMs : Z;
  confidence : Z
}.

Record TranscribeResponse := {
  resp_transcript : string;
  resp_usageUsedMs : Z;
  resp_confidence : Z;
  usageRemainingMs : Z
}.

(** What the environment does while [fakeTranscribe] waits: the delay
    elapses (the lorem text and the random confidence are then produced),
    or the abort signal fires first. *)
Inductive Outcome :=
  | Finished (text : string) (conf : Z)
  | Cancelled.

Inductive TErr :=
  | ExceededAllocatedUsage (msg : string)
  | Aborted.

Definition fakeTranscribe (len : nat) (o : Outcome) : TErr + TranscribeResult :=
  let fakeProcessTimeMs := fakeProcessTime (fakeSpeechWordCount len) in
  match o with
  | Cancelled => inl Aborted
  | Finished text conf =>
      inr {| transcript := text; confidence := conf;
             usageUsedMs := fakeProcessTimeMs |}
  end.

Definition transcribe (len : nat) (o : Outcome) : TErr + TranscribeResult :=
  fakeTranscribe len o.

Definition handleTranscribeRequest (usageRemaining : Z) (len : nat)
    (o : Outcome) : TErr + TranscribeResponse :=
  match transcribe len o with
  | inl e => inl e
  | inr result =>
      inr {| resp_transcript := transcript result;
             resp_usageUsedMs := usageUsedMs result;
             resp_confidence := confidence result;
             usageRemainingMs := usageRemaining - usageUsedMs result |}
  end.

(** [transcribeForUser]: the result and the usage store afterwards. *)
Definition transcribeForUser (s : Store) (u : UserId) (len : nat)
    (o : Outcome) : (TErr + TranscribeResponse) * Store :=
  let remaining := remainingMs (getUsage s u) in
  if remaining <=? 0 then
    (inl (ExceededAllocatedUsage "No usage remaining"), s)
  else if remaining <? estimateUsageMs len then
    (inl (ExceededAllocatedUsage
            "Not enough usage remaining to process request"), s)
  else
    match handleTranscribeRequest remaining len o with
    | inl e => (inl e, s)
    | inr result => (inr result, updateUsage s u (resp_usageUsedMs result))
    end.

End Transcribe.

(* ------------------------------------------------------------------ *)
(** ** SoftLock (util/lock) *)

Module Lock.

(** [class SoftLock<T> { private _locked = false; ... }] *)
Record SoftLock (T : Type) := { _locked : bool; _inner : T }.
Arguments _locked {T}.
Arguments _inner {T}.

Definition newSoftLock {T} (inner : T) : SoftLock T :=
  {| _locked := false; _inner := inner |}.

(** [private set(locked)]: returns the new lock and the boolean result. *)
Definition set {T} (l : SoftLock T) (locked : bool) : SoftLock T * bool :=
  if negb (Bool.eqb (_locked l) locked)
  then ({| _locked := locked; _inner := _inner l |}, true)
  else (l, false).

Definition lock {T} (l : SoftLock T) := set l true.
Definition unlock {T} (l : SoftLock T) := set l false.
Definition isLocked {T} (l : SoftLock T) := _locked l.

Inductive LockOp := OpLock | OpUnlock.

Definition apply_op {T} (op : LockOp) (l : SoftLock T) : SoftLock T * bool :=
  match op with OpLock => lock l | OpUnlock => unlock l end.

(** The lock after a sequence of calls. *)
Fixpoint lock_state {T} (l : SoftLock T) (ops : list LockOp) : SoftLock T :=
  match ops with
  | [] => l
  | op :: ops' => lock_state (fst (apply_op op l)) ops'
  end.

(** The values returned by a sequence of calls. *)
Fixpoint lock_trace {T} (l : SoftLock T) (ops : list LockOp) : list bool :=
  match ops with
  | [] => []
  | op :: ops' =>
      let '(l', r) := apply_op op l in r :: lock_trace l' ops'
  end.

End Lock.

(* ------------------------------------------------------------------ *)
(** ** Errors thrown by the code and by Node's Buffer *)

Inductive JsError :=
  | ErrRange (code : string)        (* RangeError from Buffer methods *)
  | ErrInvalidData (msg : string)   (* class InvalidData *)
  | ErrGeneric (msg : string).      (* any other Error *)

(* ------------------------------------------------------------------ *)
(** ** Frame id codec (util/buffer) and the queue entry *)

Module Frame.

(** A Node [Buffer] as its list of bytes (each in [0, 255]). *)
Abbreviation Buffer := (list Z).

(** [buf.writeUInt32BE(value)] on a 4-byte buffer: Node rejects a value
    outside [0, 2^32 - 1] with ERR_OUT_OF_RANGE and otherwise stores
    [value >>> 24], [value >>> 16], [value >>> 8], [value] (low bytes). *)
Definition writeUInt32BE (value : Z) : JsError + Buffer :=
  if (0 <=? value) && (value <=? 4294967295) then
    inr [Z.land (Z.shiftr value 24) 255; Z.land (Z.shiftr value 16) 255;
         Z.land (Z.shiftr value 8) 255; Z.land value 255]
  else inl (ErrRange "ERR_OUT_OF_RANGE").

(** [buf.readUInt32BE(0)]: ERR_BUFFER_OUT_OF_BOUNDS on fewer than 4 bytes. *)
Definition readUInt32BE (b : Buffer) : JsError + Z :=
  match b with
  | first :: b1 :: b2 :: last :: _ =>
      inr (first * 2 ^ 24 + b1 * 2 ^ 16 + b2 * 2 ^ 8 + last)
  | _ => inl (ErrRange "ERR_BUFFER_OUT_OF_BOUNDS")
  end.

(** [Buffer.concat([idBuffer, buffer])] after [idBuffer.writeUInt32BE(id)]. *)
Definition insertIdIntoBuffer (id : Z) (buffer : Buffer) : JsError + Buffer :=
  match writeUInt32BE id with
  | inl e => inl e
  | inr idBuffer => inr (idBuffer ++ buffer)
  end.

(** [{ id: buffer.readUInt32BE(0), data: buffer.subarray(4) }] *)
Definition getIdFromBuffer (buffer : Buffer) : JsError + (Z * Buffer) :=
  match readUInt32BE buffer with
  | inl e => inl e
  | inr id => inr (id, drop 4 buffer)
  end.

Record QueueEntry := { qe_id : Z; qe_data : Buffer }.

(** [new QueueEntry(buffer)] *)
Definition newQueueEntry (buffer : Buffer) : JsError + QueueEntry :=
  match getIdFromBuffer buffer with
  | inl e => inl e
  | inr (id, data) =>
      if (length data =? 0)%nat then inl (ErrInvalidData "invalid message")
      else inr {| qe_id := id; qe_data := data |}
  end.

(** JSON objects as ordered key/value lists, with JS property assignment:
    an existing key keeps its position and takes the new value. *)
Inductive JsonVal := JNum (z : Z) | JStr (s : string).
Abbreviation JsonObj := (list (string * JsonVal)).

Fixpoint obj_put (o : JsonObj) (k : string) (v : JsonVal) : JsonObj :=
  match o with
  | [] => [(k, v)]
  | (k', v') :: o' =>
      if String.eqb k k' then (k, v) :: o' else (k', v') :: obj_put o' k v
  end.

(** Object spread [{ ...o, ...extra }]. *)
Definition obj_spread (o extra : JsonObj) : JsonObj :=
  foldl (fun acc kv => obj_put acc kv.1 kv.2) o extra.

Fixpoint obj_get (o : JsonObj) (k : string) : option JsonVal :=
  match o with
  | [] => None
  | (k', v) :: o' => if String.eqb k k' then Some v else obj_get o' k
  end.

(** The object [transcribeForUser] resolves with:
    [{ ...{ transcript, confidence, usageUsedMs }, usageRemainingMs }]. *)
Definition response_obj (r : Transcribe.TranscribeResponse) : JsonObj :=
  obj_spread
    [("transcript", JStr (Transcribe.resp_transcript r));
     ("confidence", JNum (Transcribe.resp_confidence r));
     ("usageUsedMs", JNum (Transcribe.resp_usageUsedMs r))]
    [("usageRemainingMs", JNum (Transcribe.usageRemainingMs r))].

(** The reply of [processTranscribe]: [{ id: queueEntry.id, ...result }]. *)
Definition reply_obj (e : QueueEntry) (r : Transcribe.TranscribeResponse)
    : JsonObj :=
  obj_spread [("id", JNum (qe_id e))] (response_obj r).

End Frame.

(* ------------------------------------------------------------------ *)
(** ** The two Queue implementations (util/queue) *)

Module Queues.

(** Operations of the public interface and their return values
    ([undefined] is [None]). *)
Inductive QOp (T : Type) :=
  | Enqueue (x : T) | Dequeue | Peek | IsEmpty | Size | Clear | ToArray.
Arguments Enqueue {T}. Arguments Dequeue {T}. Arguments Peek {T}.
Arguments IsEmpty {T}. Arguments Size {T}. Arguments Clear {T}.
Arguments ToArray {T}.

Inductive Res (T : Type) :=
  | RUnit | RItem (x : option T) | RBool (b : bool) | RNum (n : Z)
  | RList (xs : list (option T)).
Arguments RUnit {T}. Arguments RItem {T}. Arguments RBool {T}.
Arguments RNum {T}. Arguments RList {T}.

Section PingPong.
Context {T : Type}.

(** [class PingPongBuffer<T>]: the two arrays are distinct objects, so
    swapping the references is swapping the two array values. A hole of
    [new Array(capacity)] is [None]. *)
Record PingPongBuffer := {
  _writeBuffer : list (option T);
  _readBuffer : list (option T);
  _writeSize : nat;
  _readSize : nat
}.

Definition newPingPongBuffer (capacity : nat) : PingPongBuffer :=
  {| _writeBuffer := replicate capacity None;
     _readBuffer := replicate capacity None;
     _writeSize := 0; _readSize := 0 |}.

Definition pp_write (b : PingPongBuffer) (value : T)
    : JsError + PingPongBuffer :=
  if (length (_writeBuffer b) <=? _writeSize b)%nat
  then inl (ErrGeneric "Write buffer overflow")
  else inr {| _writeBuffer := <[_writeSize b := Some value]> (_writeBuffer b);
              _readBuffer := _readBuffer b;
              _writeSize := S (_writeSize b); _readSize := _readSize b |}.

Definition pp_read (b : PingPongBuffer) (index : nat) : option T :=
  if (_readSize b <=? index)%nat then None
  else mjoin (_readBuffer b !! index).

Definition pp_size (b : PingPongBuffer) : nat := _readSize b + _writeSize b.

Definition pp_swap (b : PingPongBuffer) : PingPongBuffer :=
  {| _writeBuffer := _readBuffer b; _readBuffer := _writeBuffer b;
     _readSize := _writeSize b; _writeSize := 0 |}.

Definition pp_clear (b : PingPongBuffer) : PingPongBuffer :=
  {| _writeBuffer := _writeBuffer b; _readBuffer := _readBuffer b;
     _readSize := 0; _writeSize := 0 |}.

(** [slice(0, writeSize)] and [slice(fromIndex, readSize)] *)
Definition pp_getWriteSlice (b : PingPongBuffer) : list (option T) :=
  take (_writeSize b) (_writeBuffer b).

Definition pp_getReadSlice (b : PingPongBuffer) (fromIndex : nat)
    : list (option T) :=
  drop fromIndex (take (_readSize b) (_readBuffer b)).

(** [export class Queue<T>] backed by a [PingPongBuffer] of capacity 1024. *)
Record PQueue := {
  buffer : PingPongBuffer;
  readIndex : nat;
  hasWritten : bool
}.

Definition pq_new : PQueue :=
  {| buffer := newPingPongBuffer 1024; readIndex := 0; hasWritten := false |}.

Definition pq_flush (q : PQueue) : PQueue :=
  if negb (hasWritten q) then q
  else if (readIndex q <? _readSize (buffer q))%nat then q
  else {| hasWritten := false; buffer := pp_swap (buffer q); readIndex := 0 |}.

(** One call of the public interface: the queue after it and the value it
    returns, or the error it throws. *)
Definition pq_op (q : PQueue) (op : QOp T) : JsError + (PQueue * Res T) :=
  match op with
  | Enqueue x =>
      match pp_write (buffer q) x with
      | inl e => inl e
      | inr b => inr ({| buffer := b; readIndex := readIndex q;
                         hasWritten := true |}, RUnit)
      end
  | Dequeue =>
      let q := pq_flush q in
      if (_readSize (buffer q) <=? readIndex q)%nat then inr (q, RItem None)
      else inr ({| buffer := buffer q; readIndex := S (readIndex q);
                   hasWritten := hasWritten q |},
                RItem (pp_read (buffer q) (readIndex q)))
  | Peek =>
      let q := pq_flush q in inr (q, RItem (pp_read (buffer q) (readIndex q)))
  | IsEmpty => inr (q, RBool (pp_size (buffer q) <=? readIndex q)%nat)
  | Size => inr (q, RNum (Z.of_nat (pp_size (buffer q)) - Z.of_nat (readIndex q)))
  | Clear => inr ({| buffer := pp_clear (buffer q); readIndex := 0;
                     hasWritten := hasWritten q |}, RUnit)
  | ToArray =>
      inr (q, RList (pp_getReadSlice (buffer q) (readIndex q) ++
                     (if hasWritten q then pp_getWriteSlice (buffer q) else [])))
  end.

(** A sequence of calls: the values returned up to the first throw, and
    the error thrown, if any. *)
Fixpoint pq_run (q : PQueue) (ops : list (QOp T)) : list (Res T) * option JsError :=
  match ops with
  | [] => ([], None)
  | op :: ops' =>
      match pq_op q op with
      | inl e => ([], Some e)
      | inr (q', r) => let '(rs, err) := pq_run q' ops' in (r :: rs, err)
      end
  end.

(** [export class Queue<T> { private items: T[] = [] }] *)
Definition aq_op (items : list T) (op : QOp T) : list T * Res T :=
  match op with
  | Enqueue x => (items ++ [x], RUnit)
  | Dequeue =>
      match items with [] => ([], RItem None) | x :: xs => (xs, RItem (Some x)) end
  | Peek => (items, RItem (head items))
  | IsEmpty => (items, RBool (length items =? 0)%nat)
  | Size => (items, RNum (Z.of_nat (length items)))
  | Clear => ([], RUnit)
  | ToArray => (items, RList (map Some items))
  end.

Fixpoint aq_run (items : list T) (ops : list (QOp T)) : list (Res T) :=
  match ops with
  | [] => []
  | op :: ops' => let '(items', r) := aq_op items op in r :: aq_run items' ops'
  end.

(** The items a [PQueue] holds, in FIFO order, are [l]: the unread part
    [readIndex..readSize) of the read buffer followed by the first
    [writeSize] slots of the write buffer; both buffers keep their
    capacity of 1024 and a write is pending only when [hasWritten]. *)
Definition pq_repr (q : PQueue) (l : list T) : Prop :=
  let b := buffer q in
  length (_writeBuffer b) = 1024%nat /\ length (_readBuffer b) = 1024%nat /\
  exists R W,
    take (_readSize b) (_readBuffer b) = map Some R /\ length R = _readSize b /\
    take (_writeSize b) (_writeBuffer b) = map Some W /\ length W = _writeSize b /\
    (readIndex q <= _readSize b)%nat /\
    (hasWritten q = false -> _writeSize b = 0%nat) /\
    l = drop (readIndex q) R ++ W.

Definition is_enqueue (op : QOp T) : bool :=
  match op with Enqueue _ => true | _ => false end.

End PingPong.
End Queues.

(* ------------------------------------------------------------------ *)
(** ** Sessions, registry and message handling (ws/wsTranscribe.ts) *)

Module Gateway.
Import Close Frame.

Inductive ReadyState := CONNECTING | OPEN | CLOSING | CLOSED.

#[global] Instance ReadyState_eq_dec : EqDecision ReadyState.
Proof. solve_decision. Defined.

(** One [AuthenticatedWebSocket]: its [user] and [ready] properties, its
    [readyState], the close frame it sent and the text frames it sent. *)
Record Socket := {
  sock_user : option UserId;
  sock_ready : bool;
  sock_state : ReadyState;
  sock_close : option (WsCloseCode * CloseReasonObj);
  sock_sent : list JsonObj
}.

Definition new_socket : Socket :=
  {| sock_user := None; sock_ready := false; sock_state := OPEN;
     sock_close := None; sock_sent := [] |}.

(** The process-wide state: [wss.clients] (sockets by an object id),
    [USER_ID_SOCKET_MAP], [USER_ID_QUEUE_MAP] (keys in insertion order,
    values the id of a [SoftLock] object), the heap of [SoftLock] objects,
    the usage store and the main abort signal. *)
Record World := {
  clients : gmap nat Socket;
  socket_map : gmap UserId nat;
  queue_map : list (UserId * nat);
  locks : gmap nat (Lock.SoftLock (list QueueEntry));
  next_lock : nat;
  usage : Usage.Store;
  aborted : bool
}.

Definition set_clients (w : World) c : World :=
  {| clients := c; socket_map := socket_map w; queue_map := queue_map w;
     locks := locks w; next_lock := next_lock w; usage := usage w;
     aborted := aborted w |}.
Definition set_socket_map (w : World) m : World :=
  {| clients := clients w; socket_map := m; queue_map := queue_map w;
     locks := locks w; next_lock := next_lock w; usage := usage w;
     aborted := aborted w |}.
Definition set_queue_map (w : World) q : World :=
  {| clients := clients w; socket_map := socket_map w; queue_map := q;
     locks := locks w; next_lock := next_lock w; usage := usage w;
     aborted := aborted w |}.
Definition set_locks (w : World) l n : World :=
  {| clients := clients w; socket_map := socket_map w;
     queue_map := queue_map w; locks := l; next_lock := n;
     usage := usage w; aborted := aborted w |}.
Definition set_aborted (w : World) b : World :=
  {| clients := clients w; socket_map := socket_map w;
     queue_map := queue_map w; locks := locks w; next_lock := next_lock w;
     usage := usage w; aborted := b |}.

Definition update_socket (w : World) (sid : nat) (f : Socket -> Socket) : World :=
  match clients w !! sid with
  | Some s => set_clients w (<[sid := f s]> (clients w))
  | None => w
  end.

Definition with_user (u : option UserId) (s : Socket) : Socket :=
  {| sock_user := u; sock_ready := sock_ready s; sock_state := sock_state s;
     sock_close := sock_close s; sock_sent := sock_sent s |}.
Definition with_ready (b : bool) (s : Socket) : Socket :=
  {| sock_user := sock_user s; sock_ready := b; sock_state := sock_state s;
     sock_close := sock_close s; sock_sent := sock_sent s |}.
Definition with_sent (m : JsonObj) (s : Socket) : Socket :=
  {| sock_user := sock_user s; sock_ready := sock_ready s;
     sock_state := sock_state s; sock_close := sock_close s;
     sock_sent := sock_sent s ++ [m] |}.

(** [ws.close(code, reason)]: an open socket sends its close frame and
    becomes CLOSING; on a socket already closing or closed it does nothing. *)
Definition close_sock (code : WsCloseCode) (r : CloseReasonObj) (s : Socket)
    : Socket :=
  if decide (sock_state s = OPEN) then
    {| sock_user := sock_user s; sock_ready := sock_ready s;
       sock_state := CLOSING; sock_close := Some (code, r);
       sock_sent := sock_sent s |}
  else s.

Definition closeWithError (w : World) (sid : nat) (code : WsCloseCode)
    (data : CloseReasonObj) : World :=
  update_socket w sid (close_sock code data).

Definition isOpen (w : World) (sid : nat) : bool :=
  match clients w !! sid with
  | Some s => bool_decide (sock_state s = OPEN)
  | None => false
  end.

Definition isReady (w : World) (sid : nat) : bool :=
  match clients w !! sid with Some s => sock_ready s | None => false end.

Definition getUserIdFromSocketOrThrow (w : World) (sid : nat)
    : JsError + UserId :=
  match clients w !! sid with
  | Some {| sock_user := Some u |} => inr u
  | _ => inl (ErrGeneric "expected socket with user")
  end.

(** [sendData]: throws when the socket is not open (the send callback is
    taken to succeed). *)
Definition sendData (w : World) (sid : nat) (data : JsonObj)
    : option JsError * World :=
  if isOpen w sid then (None, update_socket w sid (with_sent data))
  else (Some (ErrGeneric "Socket not open"), w).

(** [USER_ID_QUEUE_MAP] as a JS object: lookup, assignment, [delete]. *)
Fixpoint qm_lookup (qm : list (UserId * nat)) (u : UserId) : option nat :=
  match qm with
  | [] => None
  | (k, v) :: qm' => if String.eqb k u then Some v else qm_lookup qm' u
  end.

Fixpoint qm_assign (qm : list (UserId * nat)) (u : UserId) (v : nat)
    : list (UserId * nat) :=
  match qm with
  | [] => [(u, v)]
  | (k, v') :: qm' =>
      if String.eqb k u then (k, v) :: qm' else (k, v') :: qm_assign qm' u v
  end.

Definition qm_delete (qm : list (UserId * nat)) (u : UserId)
    : list (UserId * nat) :=
  filter (fun kv => negb (String.eqb kv.1 u)) qm.

(** [getOrInitQueue]: [USER_ID_QUEUE_MAP[userId] ??= new SoftLock(new Queue())];
    returns the id of the [SoftLock] object. *)
Definition getOrInitQueue (w : World) (u : UserId) : World * nat :=
  match qm_lookup (queue_map w) u with
  | Some lid => (w, lid)
  | None =>
      let lid := next_lock w in
      let w1 := set_locks w (<[lid := Lock.newSoftLock []]> (locks w)) (S lid) in
      (set_queue_map w1 (qm_assign (queue_map w) u lid), lid)
  end.

Definition enqueue (w : World) (lid : nat) (e : QueueEntry) : World :=
  match locks w !! lid with
  | Some l =>
      set_locks w (<[lid := {| Lock._locked := Lock._locked l;
                               Lock._inner := Lock._inner l ++ [e] |}]> (locks w))
        (next_lock w)
  | None => w
  end.

Definition registerSocketForUserId (w : World) (sid : nat) : JsError + World :=
  match getUserIdFromSocketOrThrow w sid with
  | inl e => inl e
  | inr u =>
      let w1 :=
        match socket_map w !! u with
        | Some existing =>
            closeWithError w existing PolicyViolation
              {| cr_error := "Connection replaced";
                 cr_code := ConnectionReplacedError |}
        | None => w
        end in
      inr (set_socket_map w1 (<[u := sid]> (socket_map w1)))
  end.

(** The [close] listener bound to the socket [sid]. *)
Definition clientSocketCloseHandler (w : World) (sid : nat) : JsError + World :=
  match getUserIdFromSocketOrThrow w sid with
  | inl e => inl e
  | inr u =>
      let w1 := set_socket_map w (delete u (socket_map w)) in
      inr (set_queue_map w1 (qm_delete (queue_map w1) u))
  end.

(** The [message] listener bound to the socket [sid] (binary data already
    turned into a [Buffer] by [bufferFromRawData]): the world after it, and
    the exception it throws, if any. *)
Definition clientSocketMessageHandler (w : World) (sid : nat) (data : Buffer)
    : option JsError * World :=
  match getUserIdFromSocketOrThrow w sid with
  | inl e => (Some e, w)
  | inr u =>
      if negb (isReady w sid) then
        (None, closeWithError w sid PolicyViolation
                 {| cr_error := "not ready"; cr_code := NotReady |})
      else
        let '(w1, lid) := getOrInitQueue w u in
        match newQueueEntry data with
        | inl e => (Some e, w1)
        | inr entry => (None, enqueue w1 lid entry)
        end
  end.

(** [shutdownFactory(...)()] up to [wss.close]: abort the main signal and
    close every open client with GoingAway / ShuttingDown. *)
Definition shutdown (w : World) : World :=
  let w1 := set_aborted w true in
  set_clients w1
    (close_sock GoingAway {| cr_error := "server closing";
                             cr_code := ShuttingDown |} <$> clients w1).

(** main.ts: [process.on('uncaughtException' | 'unhandledRejection', ...)]
    both run [shutdownAndExit(1)]. *)
Definition process_fault (w : World) : World := shutdown w.

(** A binary frame arriving on [sid]: an exception escaping the listener
    is an uncaught exception of the process. *)
Definition on_message (w : World) (sid : nat) (data : Buffer) : World :=
  match clientSocketMessageHandler w sid data with
  | (Some _, w1) => process_fault w1
  | (None, w1) => w1
  end.

(** How the store call [usageService.getUsage(userId)] settles. *)
Inductive StoreCall := StoreResolves | StoreRejects (e : JsError).

Definition ready_msg : JsonObj := [("event", JStr "ready")].

(** [validateUsageRemaining]: the world after it and its rejection, if any. *)
Definition validateUsageRemaining (w : World) (sid : nat) (call : StoreCall)
    : option JsError * World :=
  match getUserIdFromSocketOrThrow w sid with
  | inl e => (Some e, w)
  | inr u =>
      match call with
      | StoreRejects err => (Some err, w)
      | StoreResolves =>
          let usageData := Usage.getUsage (usage w) u in
          if Usage.remainingMs usageData <=? 0 then
            (None, closeWithError w sid PolicyViolation
                     {| cr_error := "Exceeded allocated usage";
                        cr_code := ExceededAllocatedUsageError |})
          else
            let w1 := update_socket w sid (with_ready true) in
            (* try { await sendData(...) } catch { console.error(...) } *)
            (None, snd (sendData w1 sid ready_msg))
      end
  end.

(** [handleConnection] for the socket [sid], given [authenticateClient(req)]
    and how the admission store call settles; the promise of
    [validateUsageRemaining] is discarded with [void], so its rejection is
    an unhandled rejection of the process. *)
Definition handleConnection (w : World) (sid : nat) (user : option UserId)
    (call : StoreCall) : World :=
  let w0 := update_socket w sid (with_user user) in
  match user with
  | None =>
      closeWithError w0 sid PolicyViolation
        {| cr_error := "Unauthorized"; cr_code := Unauthorized |}
  | Some _ =>
      match registerSocketForUserId w0 sid with
      | inl _ => process_fault w0
      | inr w1 =>
          match validateUsageRemaining w1 sid call with
          | (Some _, w2) => process_fault w2
          | (None, w2) => w2
          end
      end
  end.

End Gateway.

(* ------------------------------------------------------------------ *)
(** ** The dispatcher: [processQueue] and [queueRunner] *)

Module Dispatcher.
Import Gateway Frame.

(** One resumption of the generator [processQueue] over the snapshot
    [ks] of [Object.keys(USER_ID_QUEUE_MAP)] (iteration in insertion order):
    the world after it and, when it yields, the user, the [SoftLock] it
    holds, the dequeued entry and the keys left to scan. *)
Fixpoint processQueue_next (w : World) (ks : list UserId)
    : World * option (UserId * nat * QueueEntry * list UserId) :=
  match ks with
  | [] => (w, None)
  | u :: ks' =>
      if aborted w then (w, None) else
      match socket_map w !! u with
      | None => processQueue_next w ks'
      | Some sid =>
          match qm_lookup (queue_map w) u with
          | None => processQueue_next w ks'
          | Some lid =>
              match locks w !! lid with
              | None => processQueue_next w ks'
              | Some l =>
                  if Lock.isLocked l then processQueue_next w ks' else
                  let '(l1, ok) := Lock.lock l in
                  let w1 := set_locks w (<[lid := l1]> (locks w)) (next_lock w) in
                  if negb ok then processQueue_next w1 ks' else
                  if negb (isOpen w1 sid) then
                    processQueue_next (set_queue_map w1 (qm_delete (queue_map w1) u)) ks'
                  else
                    match Lock._inner l1 with
                    | [] =>
                        let l2 := fst (Lock.unlock l1) in
                        processQueue_next
                          (set_locks w1 (<[lid := l2]> (locks w1)) (next_lock w1)) ks'
                    | nextItem :: rest =>
                        let l2 := {| Lock._locked := Lock._locked l1;
                                     Lock._inner := rest |} in
                        (set_locks w1 (<[lid := l2]> (locks w1)) (next_lock w1),
                         Some (u, lid, nextItem, ks'))
                    end
              end
          end
      end
  end.

(** Promises of task [n]: the one [processQueue] yields
    ([processTranscribe(...).catch(...).finally(unlock)]) and the one the
    runner puts in its set ([transcribePromise.finally(...)]). *)
Inductive Prom := POrig (n : nat) | PFin (n : nat).

#[global] Instance Prom_eq_dec : EqDecision Prom.
Proof. solve_decision. Defined.

(** [Set<Promise<void>>]: insertion-ordered, without duplicates. *)
Definition set_add (x : Prom) (s : list Prom) : list Prom :=
  if decide (x ∈ s) then s else s ++ [x].
Definition set_delete (x : Prom) (s : list Prom) : list Prom :=
  filter (fun y => y <> x) s.

(** Where [queueRunner] is: at the top of [while (true)], inside the
    [for ... of] over the generator (with the keys left to scan), awaiting
    [Promise.race([...])], or returned. *)
Inductive Phase :=
  | PTop | PScan (ks : list UserId) | PWait (ks : list UserId) | PReturned.

Record DState := {
  dw : World;
  dset : list Prom;               (* the runner's [set] *)
  dflight : list (nat * nat);     (* started, not completed: task, SoftLock *)
  ddone : list nat;               (* completed tasks *)
  dnext : nat;                    (* id of the next task *)
  dphase : Phase
}.

(** What happens next: the runner's own next step, the completion of a
    started task, a binary frame arriving on a socket, or the shutdown. *)
Inductive Event :=
  | Runner
  | TaskDone (n : nat)
  | Message (sid : nat) (data : Buffer)
  | Shutdown.

Definition mk (w : World) (set : list Prom) (fl : list (nat * nat))
    (dn : list nat) (nx : nat) (ph : Phase) : DState :=
  {| dw := w; dset := set; dflight := fl; ddone := dn; dnext := nx;
     dphase := ph |}.

(** [queueRunner(maxConcurrent, mainAbortSignal)]. [race_at_once] selects
    the [rejectOnAbort] of util/abort that returns a [{ promise, cancel }]
    object: [Promise.race] then settles at once on that non-promise value;
    with the [rejectOnAbort] that returns a promise, the race waits for one
    promise of the set or for the abort. *)
Definition runner_step (maxConcurrent : nat) (race_at_once : bool) (s : DState)
    : option DState :=
  let w := dw s in
  match dphase s with
  | PReturned => None
  | PTop =>
      if aborted w then Some (mk w (dset s) (dflight s) (ddone s) (dnext s) PReturned)
      else Some (mk w (dset s) (dflight s) (ddone s) (dnext s)
                    (PScan (map fst (queue_map w))))
  | PScan ks =>
      match processQueue_next w ks with
      | (w1, None) => Some (mk w1 (dset s) (dflight s) (ddone s) (dnext s) PTop)
      | (w1, Some (u, lid, e, ks')) =>
          let n := dnext s in
          let set1 := set_add (PFin n) (dset s) in
          Some (mk w1 set1 (dflight s ++ [(n, lid)]) (ddone s) (S n)
                   (if (length set1 =? maxConcurrent)%nat then PWait ks'
                    else PScan ks'))
      end
  | PWait ks =>
      if race_at_once then Some (mk w [] (dflight s) (ddone s) (dnext s) (PScan ks))
      else if aborted w then
        Some (mk w (dset s) (dflight s) (ddone s) (dnext s) PReturned)
      else if existsb (fun p => match p with
                                | PFin n => bool_decide (n ∈ ddone s)
                                | POrig _ => false end) (dset s)
      then Some (mk w [] (dflight s) (ddone s) (dnext s) (PScan ks))
      else None
  end.

(** Task [n] completes: [lock.unlock()] on the [SoftLock] it holds, then
    [set.delete(transcribePromise)], which names the yielded promise. *)
Definition task_done (s : DState) (n : nat) : option DState :=
  match list_find (fun t => t.1 = n) (dflight s) with
  | None => None
  | Some (i, (_, lid)) =>
      let w := dw s in
      let w1 :=
        match locks w !! lid with
        | Some l => set_locks w (<[lid := fst (Lock.unlock l)]> (locks w)) (next_lock w)
        | None => w
        end in
      Some (mk w1 (set_delete (POrig n) (dset s)) (delete i (dflight s))
               (ddone s ++ [n]) (dnext s) (dphase s))
  end.

Definition dstep (maxConcurrent : nat) (race_at_once : bool) (s : DState)
    (ev : Event) : option DState :=
  match ev with
  | Runner => runner_step maxConcurrent race_at_once s
  | TaskDone n => task_done s n
  | Message sid data =>
      Some (mk (on_message (dw s) sid data) (dset s) (dflight s) (ddone s)
               (dnext s) (dphase s))
  | Shutdown =>
      Some (mk (shutdown (dw s)) (dset s) (dflight s) (ddone s) (dnext s)
               (dphase s))
  end.

Fixpoint drun (maxConcurrent : nat) (race_at_once : bool) (s : DState)
    (evs : list Event) : option DState :=
  match evs with
  | [] => Some s
  | ev :: evs' =>
      match dstep maxConcurrent race_at_once s ev with
      | Some s' => drun maxConcurrent race_at_once s' evs'
      | None => None
      end
  end.

Inductive reach (maxConcurrent : nat) (race_at_once : bool) (s0 : DState)
    : DState -> Prop :=
  | reach_refl : reach maxConcurrent race_at_once s0 s0
  | reach_step s ev s' :
      reach maxConcurrent race_at_once s0 s ->
      dstep maxConcurrent race_at_once s ev = Some s' ->
      reach maxConcurrent race_at_once s0 s'.

Definition runner_init (w : World) : DState := mk w [] [] [] 0 PTop.

Definition in_flight (s : DState) : nat := length (dflight s).

End Dispatcher.

(* ------------------------------------------------------------------ *)
(** ** Concrete configurations *)

Module Scenarios.
Import Close Frame Gateway Dispatcher.

(** An authenticated socket that passed admission. *)
Definition ready_socket (u : UserId) : Socket :=
  {| sock_user := Some u; sock_ready := true; sock_state := OPEN;
     sock_close := None; sock_sent := [] |}.

(** Six users, each with a Ready session registered on socket [i]. *)
Definition c1_users : list UserId := ["a"; "b"; "c"; "d"; "e"; "f"].

Definition c1_world : World :=
  {| clients := list_to_map (zip (seq 0 6) (map ready_socket c1_users));
     socket_map := list_to_map (zip c1_users (seq 0 6));
     queue_map := []; locks := ∅; next_lock := 0;
     usage := list_to_map (map (fun u => (u, Usage.createUsage
                                 Usage.STARTING_USAGE_LIMIT_MS)) c1_users);
     aborted := false |}.

(** A frame with sequence id 1 and a one-byte payload. *)
Definition c1_frame : Buffer := [0; 0; 0; 1; 7].

(** Every user sends a frame and user "a" a second one; the runner starts
    five tasks, task 0 completes, and the runner goes on. *)
Definition c1_events : list Event :=
  map (fun i => Message i c1_frame) (seq 0 6) ++ [Message 0 c1_frame] ++
  repeat Runner 6 ++ [TaskDone 0] ++ repeat Runner 5.

(** Two sockets, not yet authenticated, and user "1" with budget. *)
Definition c2_world0 : World :=
  {| clients := {[0%nat := new_socket; 1%nat := new_socket]};
     socket_map := ∅; queue_map := []; locks := ∅; next_lock := 0;
     usage := {["1" := Usage.createUsage Usage.STARTING_USAGE_LIMIT_MS]};
     aborted := false |}.

(** User "1" connects on socket 0, then again on socket 1. *)
Definition c2_world2 : World :=
  handleConnection (handleConnection c2_world0 0 (Some "1") StoreResolves)
    1 (Some "1") StoreResolves.

(** User "1" with a Ready session on socket 0. *)
Definition c3_world : World :=
  {| clients := {[0%nat := ready_socket "1"]};
     socket_map := {["1" := 0%nat]}; queue_map := []; locks := ∅;
     next_lock := 0;
     usage := {["1" := Usage.createUsage Usage.STARTING_USAGE_LIMIT_MS]};
     aborted := false |}.

(** A socket just accepted, nobody registered. *)
Definition c4_world : World :=
  {| clients := {[0%nat := new_socket]};
     socket_map := ∅; queue_map := []; locks := ∅; next_lock := 0;
     usage := ∅; aborted := false |}.

End Scenarios.

(* ------------------------------------------------------------------ *)
(** ** Authentication (server/auth.ts, middleware/authMiddleware.ts) *)

Module Auth.

(** [AUTH_TOKEN = new Map(Object.entries({ a: userId('1'), b: userId('2') }))] *)
Definition AUTH_TOKEN : gmap string UserId := {[ "a" := "1"; "b" := "2" ]}.

Definition space : Ascii.ascii := Ascii.ascii_of_nat 32.

(** [s.split(' ')]: the pieces between the space characters. *)
Fixpoint split_space (s : string) : list string :=
  match s with
  | EmptyString => [""]
  | String c s' =>
      if Ascii.eqb c space then "" :: split_space s'
      else match split_space s' with
           | [] => [String c ""]
           | w :: ws => String c w :: ws
           end
  end.

(** [getTokenFromAuthorization(auth)]; an absent header is [None]. *)
Definition getTokenFromAuthorization (auth : option string) : option string :=
  match auth with
  | None => None
  | Some a =>
      if String.eqb a "" || negb (String.prefix "Bearer " a) then None
      else Some (default "" (split_space a !! 1%nat))
  end.

(** [AUTH_TOKEN.get(token) ?? null] *)
Definition getUserIdFromToken (token : string) : option UserId :=
  AUTH_TOKEN !! token.

(** [authenticateClient(req)] of ws/wsTranscribe.ts ([!token] and [!userId]
    also reject the empty string). *)
Definition authenticateClient (authorization : option string) : option UserId :=
  match getTokenFromAuthorization authorization with
  | None => None
  | Some token =>
      if String.eqb token "" then None else
      match getUserIdFromToken token with
      | None => None
      | Some u => if String.eqb u "" then None else Some u
      end
  end.

(** What [authMiddleware] does with a request: answer
    [401 { error: 'Unauthorized' }], or set [req.user] and call [next()]. *)
Inductive MwResult := MwUnauthorized | MwNext (u : UserId).

Definition authMiddleware (authorization : option string) : MwResult :=
  match getTokenFromAuthorization authorization with
  | None => MwUnauthorized
  | Some token =>
      if String.eqb token "" then MwUnauthorized else
      match getUserIdFromToken token with
      | None => MwUnauthorized
      | Some u => if String.eqb u "" then MwUnauthorized else MwNext u
      end
  end.

End Auth.

(* ------------------------------------------------------------------ *)
(** ** [BufferCounter] (util/buffer) *)

Module Counter.
Import Frame.

(** [class BufferCounter { constructor(private _lastId = 0) }]; ids are
    JS numbers, exact integers here. *)
Record BufferCounter := { _lastId : Z }.

Definition newBufferCounter (lastId : Z) : BufferCounter := {| _lastId := lastId |}.

(** [wrap(buffer)]: [this._lastId += 1] happens before
    [insertIdIntoBuffer], so it also happens when that throws. *)
Definition wrap (c : BufferCounter) (buffer : Buffer)
    : BufferCounter * (JsError + Buffer) :=
  let c1 := {| _lastId := _lastId c + 1 |} in
  (c1, insertIdIntoBuffer (_lastId c1) buffer).

(** Successive [wrap] calls on one counter, each returning or throwing. *)
Fixpoint wrap_all (c : BufferCounter) (bs : list Buffer)
    : BufferCounter * list (JsError + Buffer) :=
  match bs with
  | [] => (c, [])
  | b :: bs' =>
      let '(c1, r) := wrap c b in
      let '(c2, rs) := wrap_all c1 bs' in (c2, r :: rs)
  end.

End Counter.

(* ------------------------------------------------------------------ *)
(** ** [findIndex] and [filter] of the two queues (util/queue) *)

Module QueueSearch.
Import Queues.

Section Search.
Context {T : Type}.

(** [Array.prototype.findIndex]: the predicate also sees the holes of the
    array (as [undefined]); -1 when nothing matches. *)
Fixpoint js_findIndex (p : option T -> bool) (xs : list (option T)) : Z :=
  match xs with
  | [] => -1
  | x :: xs' =>
      if p x then 0 else
      let i := js_findIndex p xs' in if (i <? 0)%Z then i else (i + 1)%Z
  end.

(** [Array.prototype.filter]: holes are skipped. *)
Fixpoint js_filter (p : T -> bool) (xs : list (option T)) : list T :=
  match xs with
  | [] => []
  | None :: xs' => js_filter p xs'
  | Some x :: xs' => if p x then x :: js_filter p xs' else js_filter p xs'
  end.

(** [PingPongBuffer.toArray()]: [this._readBuffer.slice(0, this._readSize)] *)
Definition pp_toArray (b : @PingPongBuffer T) : list (option T) :=
  take (_readSize b) (_readBuffer b).

(** PingPong [Queue.findIndex] / [Queue.filter]: over [this.buffer.toArray()]. *)
Definition pq_findIndex (q : @PQueue T) (p : option T -> bool) : Z :=
  js_findIndex p (pp_toArray (buffer q)).
Definition pq_filter (q : @PQueue T) (p : T -> bool) : list T :=
  js_filter p (pp_toArray (buffer q)).

(** Array [Queue.findIndex] / [Queue.filter]: over [this.items]. *)
Definition aq_findIndex (items : list T) (p : option T -> bool) : Z :=
  js_findIndex p (map Some items).
Definition aq_filter (items : list T) (p : T -> bool) : list T :=
  List.filter p items.

(** The queues after a sequence of calls (the first throw stops it). *)
Fixpoint pq_exec (q : @PQueue T) (ops : list (QOp T)) : JsError + @PQueue T :=
  match ops with
  | [] => inr q
  | op :: ops' =>
      match pq_op q op with
      | inl e => inl e
      | inr (q', _) => pq_exec q' ops'
      end
  end.

Fixpoint aq_exec (items : list T) (ops : list (QOp T)) : list T :=
  match ops with
  | [] => items
  | op :: ops' => aq_exec (fst (aq_op items op)) ops'
  end.

End Search.
End QueueSearch.

(* ------------------------------------------------------------------ *)
(** ** [processTranscribe] and [handleTranscribeError] (ws/wsTranscribe.ts) *)

Module Processing.
Import Close Frame Gateway.

(** The value a transcription can reject with, by class (the error
    classes of util/error are disjoint subclasses of [Error]); a value
    that is not an [Error] is kept as its string form. *)
Inductive ErrObj :=
  | EAborted (msg : string)
  | ETimeout (msg : string)
  | EExceeded (msg : string)
  | EInvalidData (msg : string)
  | EConnClosed (msg : string)
  | EError (msg : string)
  | ENonError (v : string).

(** An exception of the modelled code as an [ErrObj] (a RangeError is
    represented by its code). *)
Definition err_of_js (e : JsError) : ErrObj :=
  match e with
  | ErrRange c => EError c
  | ErrInvalidData m => EInvalidData m
  | ErrGeneric m => EError m
  end.

(** A rejection of [transcribeForUser] as an [ErrObj]: the only abort
    error [fakeTranscribe] throws is [new Error('Aborted')] (the race with
    the object returned by [rejectOnAbort] never rejects). *)
Definition err_of_terr (e : Transcribe.TErr) : ErrObj :=
  match e with
  | Transcribe.ExceededAllocatedUsage m => EExceeded m
  | Transcribe.Aborted => EError "Aborted"
  end.

Definition handleTranscribeError (w : World) (sid : nat) (err : ErrObj) : World :=
  match err with
  | EAborted _ =>
      closeWithError w sid GoingAway {| cr_error := "Aborted"; cr_code := AbortedError |}
  | ETimeout _ =>
      closeWithError w sid Timeout {| cr_error := "Timeout"; cr_code := TimeoutError |}
  | EExceeded _ =>
      closeWithError w sid PolicyViolation
        {| cr_error := "Exceeded allocated usage"; cr_code := ExceededAllocatedUsageError |}
  | EInvalidData m =>
      closeWithError w sid InvalidData {| cr_error := m; cr_code := InvalidDataCode |}
  | EConnClosed _ => w
  | EError m =>
      closeWithError w sid UnexpectedError {| cr_error := m; cr_code := ServerError |}
  | ENonError v =>
      closeWithError w sid UnexpectedError {| cr_error := v; cr_code := ServerError |}
  end.

(** The synchronous start of [processTranscribe]: the socket of the user,
    or the error 'client socket gone'. *)
Definition processTranscribe_start (w : World) (u : UserId) : JsError + nat :=
  match socket_map w !! u with
  | Some sid => inr sid
  | None => inl (ErrGeneric "client socket gone")
  end.

(** The rest of [processTranscribe], once [timeout(60_000, ...)] has
    settled with [settled], in the world [w] at that time: the [try] body,
    then the [catch] on its exception. *)
Definition processTranscribe_resume (w : World) (sid : nat) (e : QueueEntry)
    (settled : ErrObj + Transcribe.TranscribeResponse) : World :=
  let attempt : ErrObj + World :=
    match settled with
    | inl err => inl err
    | inr result =>
        if negb (isOpen w sid) then
          inl (EConnClosed "Socket closed while processing")
        else
          match sendData w sid (reply_obj e result) with
          | (Some err, _) => inl (err_of_js err)
          | (None, w1) =>
              if Transcribe.usageRemainingMs result <=? 0 then
                inr (closeWithError w1 sid PolicyViolation
                       {| cr_error := "Exceeded allocated usage";
                          cr_code := ExceededAllocatedUsageError |})
              else inr w1
          end
    end in
  match attempt with
  | inr w' => w'
  | inl err => if negb (isOpen w sid) then w else handleTranscribeError w sid err
  end.

Definition set_usage (w : World) (s : Usage.Store) : World :=
  {| clients := clients w; socket_map := socket_map w; queue_map := queue_map w;
     locks := locks w; next_lock := next_lock w; usage := s;
     aborted := aborted w |}.

(** [processTranscribe(userId, queueEntry, signal)] when nothing else runs
    while it waits and the 60 s timeout does not fire: [transcribeForUser]
    on the entry's data with outcome [o], then the rest. The signal it
    gets is the one of [timeout]'s own controller, aborted only when the
    timeout fires: an abort of the main signal or a 'close' of the socket
    aborts [abortController], which nothing reads, and the task goes on
    as [Finished]; [Cancelled] is a signal already aborted at the call. *)
Definition processTranscribe (w : World) (u : UserId) (e : QueueEntry)
    (o : Transcribe.Outcome) : JsError + World :=
  match processTranscribe_start w u with
  | inl err => inl err
  | inr sid =>
      let '(res, s') := Transcribe.transcribeForUser (usage w) u (length (qe_data e)) o in
      let settled := match res with inl te => inl (err_of_terr te) | inr r => inr r end in
      inr (processTranscribe_resume (set_usage w s') sid e settled)
  end.

End Processing.

(* ------------------------------------------------------------------ *)
(** ** [rejectOnAbort] and [onAbort] (util/abort.ts) *)

Module Abort.

Inductive PState := Pending | Resolved | Rejected (msg : string).

(** The listener functions: the [handler] closure of one [rejectOnAbort]
    call (rejecting its promise) or a caller's [callback]. *)
Inductive Fn := FHandler (pid : nat) | FCallback (cid : nat).

#[global] Instance Fn_eq_dec : EqDecision Fn.
Proof. solve_decision. Defined.

(** An [AbortSignal] with its 'abort' listeners in registration order,
    the promises created so far, and the callbacks invoked so far. *)
Record AState := {
  a_aborted : bool;
  a_listeners : list Fn;
  a_promises : gmap nat PState;
  a_calls : list nat;
  a_next : nat
}.

Definition mkA b ls ps cs n : AState :=
  {| a_aborted := b; a_listeners := ls; a_promises := ps; a_calls := cs; a_next := n |}.

(** [addEventListener('abort', f, { once: true })]: a listener already
    registered is not added again. *)
Definition addEventListener (st : AState) (f : Fn) : AState :=
  if decide (f ∈ a_listeners st) then st
  else mkA (a_aborted st) (a_listeners st ++ [f]) (a_promises st) (a_calls st) (a_next st).

Definition removeEventListener (st : AState) (f : Fn) : AState :=
  mkA (a_aborted st) (filter (fun g => g <> f) (a_listeners st)) (a_promises st)
      (a_calls st) (a_next st).

(** Resolving or rejecting a promise that is already settled does nothing. *)
Definition settle (ps : gmap nat PState) (pid : nat) (v : PState) : gmap nat PState :=
  match ps !! pid with Some Pending => <[pid := v]> ps | _ => ps end.

Definition run_listener (st : AState) (f : Fn) : AState :=
  match f with
  | FHandler pid =>
      mkA (a_aborted st) (a_listeners st)
          (settle (a_promises st) pid (Rejected "aborted")) (a_calls st) (a_next st)
  | FCallback cid =>
      mkA (a_aborted st) (a_listeners st) (a_promises st) (a_calls st ++ [cid]) (a_next st)
  end.

(** [controller.abort()]: once; the [once] listeners are removed and run
    in order. *)
Definition abort (st : AState) : AState :=
  if a_aborted st then st
  else foldl run_listener
         (mkA true [] (a_promises st) (a_calls st) (a_next st)) (a_listeners st).

Inductive AbortErr := ErrAborted (msg : string).

(** The [cancel] of the object [rejectOnAbort] returns. *)
Inductive CancelFn := CancelNoop | CancelListener (resolveOnCancel : bool) (pid : nat).

Record Handle := { h_promise : nat; h_cancel : CancelFn }.

Definition rejectOnAbort (st : AState) (allowAlreadyAborted resolveOnCancel : bool)
    : AbortErr + (AState * Handle) :=
  let pid := a_next st in
  if a_aborted st then
    if allowAlreadyAborted then
      inr (mkA (a_aborted st) (a_listeners st)
             (<[pid := Rejected "already aborted"]> (a_promises st)) (a_calls st) (S pid),
           {| h_promise := pid; h_cancel := CancelNoop |})
    else inl (ErrAborted "already aborted")
  else
    let st1 := mkA (a_aborted st) (a_listeners st) (<[pid := Pending]> (a_promises st))
                   (a_calls st) (S pid) in
    inr (addEventListener st1 (FHandler pid),
         {| h_promise := pid; h_cancel := CancelListener resolveOnCancel pid |}).

Definition cancel (st : AState) (h : Handle) : AState :=
  match h_cancel h with
  | CancelNoop => st
  | CancelListener r pid =>
      let st1 := if r then mkA (a_aborted st) (a_listeners st)
                             (settle (a_promises st) pid Resolved) (a_calls st) (a_next st)
                 else st in
      removeEventListener st1 (FHandler pid)
  end.

(** [onAbort(signal, callback, allowAlreadyAborted)]: the state after it
    and the cleanup it returns ([None] for [void]). *)
Definition onAbort (st : AState) (cid : nat) (allowAlreadyAborted : bool)
    : AbortErr + (AState * option Fn) :=
  if a_aborted st then
    if allowAlreadyAborted then
      inr (mkA (a_aborted st) (a_listeners st) (a_promises st) (a_calls st ++ [cid])
             (a_next st), None)
    else inl (ErrAborted "already aborted")
  else inr (addEventListener st (FCallback cid), Some (FCallback cid)).

(** Calling the cleanup returned by [onAbort]. *)
Definition cleanup (st : AState) (f : option Fn) : AState :=
  match f with Some g => removeEventListener st g | None => st end.

Definition count_calls (cid : nat) (st : AState) : nat :=
  length (filter (fun c => c = cid) (a_calls st)).

End Abort.

(* ------------------------------------------------------------------ *)
(** ** The server around the dispatcher *)

Module Environment.
Import Close Frame Gateway Dispatcher Processing.

Definition with_state (st : ReadyState) (s : Socket) : Socket :=
  {| sock_user := sock_user s; sock_ready := sock_ready s; sock_state := st;
     sock_close := sock_close s; sock_sent := sock_sent s |}.

(** The socket [sid] emits 'close', its readyState being CLOSED: the
    listener [clientSocketCloseHandler], bound with [once] by
    [handleConnection] to an authenticated socket, runs, and an exception
    it throws is an uncaught exception of the process. The other 'close'
    listener, [unExpectedCloseHandler] of [processTranscribe], aborts a
    controller whose signal nothing reads. *)
Definition socket_close (w : World) (sid : nat) : option World :=
  match clients w !! sid with
  | None => None
  | Some s =>
      if decide (sock_state s = CLOSED) then None else
      let w1 := update_socket w sid (with_state CLOSED) in
      match sock_user s with
      | None => Some w1
      | Some _ =>
          match clientSocketCloseHandler w1 sid with
          | inl _ => Some (process_fault w1)
          | inr w2 => Some w2
          end
      end
  end.

(** [wss] accepts a connection on a new socket [sid]; [handleConnection]
    is its 'connection' listener until the shutdown removes it. *)
Definition connection (w : World) (sid : nat) (user : option UserId)
    (call : StoreCall) : World + unit :=
  if aborted w then inr tt else
  match clients w !! sid with
  | Some _ => inr tt
  | None => inl (handleConnection (set_clients w (<[sid := new_socket]> (clients w)))
                   sid user call)
  end.

(** What happens outside the dispatcher loop: a socket closes, a client
    connects, or a started task goes on: the [usageService.updateUsage]
    of its [transcribeForUser], or the rest of its [processTranscribe]
    once its transcription settled. The events of the tasks may come at
    any time, for any socket and entry: more states than the tasks
    produce. *)
Inductive EnvEvent :=
  | SocketClose (sid : nat)
  | Connection (sid : nat) (user : option UserId) (call : StoreCall)
  | UsageUpdate (u : UserId) (usedMs : Z)
  | TranscribeSettled (sid : nat) (e : QueueEntry)
      (settled : ErrObj + Transcribe.TranscribeResponse).

Definition env_step (w : World) (ev : EnvEvent) : option World :=
  match ev with
  | SocketClose sid => socket_close w sid
  | Connection sid user call =>
      match connection w sid user call with inl w' => Some w' | inr _ => None end
  | UsageUpdate u usedMs => Some (set_usage w (Usage.updateUsage (usage w) u usedMs))
  | TranscribeSettled sid e settled => Some (processTranscribe_resume w sid e settled)
  end.

(** The dispatcher's events and the others, interleaved. *)
Inductive FullEvent := Disp (ev : Event) | Env (ev : EnvEvent).

Definition full_step (maxConcurrent : nat) (race_at_once : bool) (s : DState)
    (fe : FullEvent) : option DState :=
  match fe with
  | Disp ev => dstep maxConcurrent race_at_once s ev
  | Env ev =>
      match env_step (dw s) ev with
      | Some w' => Some (mk w' (dset s) (dflight s) (ddone s) (dnext s) (dphase s))
      | None => None
      end
  end.

Fixpoint full_run (maxConcurrent : nat) (race_at_once : bool) (s : DState)
    (evs : list FullEvent) : option DState :=
  match evs with
  | [] => Some s
  | ev :: evs' =>
      match full_step maxConcurrent race_at_once s ev with
      | Some s' => full_run maxConcurrent race_at_once s' evs'
      | None => None
      end
  end.

Inductive full_reach (maxConcurrent : nat) (race_at_once : bool) (s0 : DState)
    : DState -> Prop :=
  | full_refl : full_reach maxConcurrent race_at_once s0 s0
  | full_next s ev s' :
      full_reach maxConcurrent race_at_once s0 s ->
      full_step maxConcurrent race_at_once s ev = Some s' ->
      full_reach maxConcurrent race_at_once s0 s'.

End Environment.

(* ------------------------------------------------------------------ *)
(** ** Invariants of the lock heap *)

Module Invariants.
Import Frame Gateway Dispatcher.

(** Every [SoftLock] object has an id below [next_lock]. *)
Definition locks_fresh (w : World) : Prop :=
  forall k, is_Some (locks w !! k) -> (k < next_lock w)%nat.

(** The locks locked in [w] are still there, and locked, in [w1]. *)
Definition keeps_locked (w w1 : World) : Prop :=
  forall lid l, locks w !! lid = Some l -> Lock._locked l = true ->
    exists l1, locks w1 !! lid = Some l1 /\ Lock._locked l1 = true.
End Invariants.

(* ------------------------------------------------------------------ *)
(** ** Sample inputs *)

Module Samples.
Import Close Frame Gateway Dispatcher Scenarios.

(** User "1" on socket 0, and a second socket 1 of user "1" not yet registered. *)
Definition replace_world : World :=
  {| clients := {[0%nat := ready_socket "1"; 1%nat := ready_socket "1"]};
     socket_map := {["1" := 0%nat]}; queue_map := []; locks := ∅; next_lock := 0;
     usage := {["1" := Usage.createUsage Usage.STARTING_USAGE_LIMIT_MS]};
     aborted := false |}.

(** User "1" authenticated on socket 0, before admission completed. *)
Definition unready_world : World :=
  {| clients := {[0%nat := with_user (Some "1") new_socket]};
     socket_map := {["1" := 0%nat]}; queue_map := []; locks := ∅; next_lock := 0;
     usage := {["1" := Usage.createUsage Usage.STARTING_USAGE_LIMIT_MS]};
     aborted := false |}.

(** User "1" Ready on socket 0 with 100 ms left. *)
Definition low_world : World :=
  {| clients := {[0%nat := ready_socket "1"]};
     socket_map := {["1" := 0%nat]}; queue_map := []; locks := ∅; next_lock := 0;
     usage := {["1" := Usage.createUsage 100]};
     aborted := false |}.

(** The entry of [c1_frame]. *)
Definition sample_entry : QueueEntry := {| qe_id := 1; qe_data := [7] |}.

Definition sample_response : Transcribe.TranscribeResponse :=
  {| Transcribe.resp_transcript := "hello"; Transcribe.resp_usageUsedMs := 250;
     Transcribe.resp_confidence := 90; Transcribe.usageRemainingMs := 750 |}.

(** The world after the frame of [c1_frame] from user "1". *)
Definition queued_world : World := on_message c3_world 0 c1_frame.

(** A frame from user "1" and the runner starts its task; socket 0 closes,
    user "1" reconnects on socket 1 and sends a frame, and the runner starts
    a second task for the same user. *)
Definition inflight_events : list Environment.FullEvent :=
  [Environment.Disp (Message 0 c1_frame); Environment.Disp Runner;
   Environment.Disp Runner; Environment.Env (Environment.SocketClose 0);
   Environment.Env (Environment.Connection 1 (Some "1") StoreResolves);
   Environment.Disp (Message 1 c1_frame); Environment.Disp Runner;
   Environment.Disp Runner; Environment.Disp Runner].

Definition inflight_state : DState :=
  default (runner_init c3_world)
    (Environment.full_run 5 false (runner_init c3_world) inflight_events).

End Samples.

(* ================================================================== *)
(** * Properties *)

(* ------------------------------------------------------------------ *)
(** ** SoftLock *)

Module LockFacts.
Import Lock.

Lemma apply_op_locked {T} (op : LockOp) (l : SoftLock T) :
  _locked (fst (apply_op op l)) = match op with OpLock => true | OpUnlock => false end.
Proof. destruct op, l as [[] ?]; reflexivity. Qed.

Lemma lock_trace_lookup {T} (ops : list LockOp) (l : SoftLock T) i op :
  ops !! i = Some op ->
  lock_trace l ops !! i = Some (snd (apply_op op (lock_state l (take i ops)))).
Proof.
  revert l i. induction ops as [|op' ops IH]; intros l i Hi; [done|].
  destruct i as [|i]; simpl in Hi.
  - injection Hi as ->. cbn [take lock_state lock_trace].
    by destruct (apply_op op l).
  - cbn [take lock_state lock_trace].
    destruct (apply_op op' l) as [l' r] eqn:E. cbn [lookup list_lookup].
    exact (IH l' i Hi).
Qed.

Lemma lock_state_take_S {T} (ops : list LockOp) (l : SoftLock T) i op :
  ops !! i = Some op ->
  lock_state l (take (S i) ops) = fst (apply_op op (lock_state l (take i ops))).
Proof.
  revert l i. induction ops as [|op' ops IH]; intros l i Hi; [done|].
  destruct i as [|i]; simpl in Hi.
  - by injection Hi as ->.
  - cbn [take lock_state]. by apply IH.
Qed.

(** Once a call to [lock()] succeeded at position [i], the flag stays set
    up to position [m] unless a successful [unlock()] lies in between. *)
Lemma locked_until_unlock {T} (l : SoftLock T) (ops : list LockOp) i m :
  ops !! i = Some OpLock ->
  (S i <= m <= length ops)%nat ->
  (exists k, (i < k < m)%nat /\ ops !! k = Some OpUnlock /\
             lock_trace l ops !! k = Some true) \/
  _locked (lock_state l (take m ops)) = true.
Proof.
  intros Hi Hm. induction m as [|m IH]; [lia|].
  destruct (decide (m = i)) as [->|Hne].
  - right. rewrite (lock_state_take_S _ _ _ _ Hi). apply apply_op_locked.
  - destruct IH as [[k Hk]|Hlk]; [lia| |].
    + left. exists k. intuition lia.
    + destruct (lookup_lt_is_Some_2 ops m) as [op Hop]; [lia|].
      destruct op.
      * right. rewrite (lock_state_take_S _ _ _ _ Hop). apply apply_op_locked.
      * left. exists m. split; [lia|]. split; [done|].
        rewrite (lock_trace_lookup _ _ _ _ Hop).
        destruct (lock_state l (take m ops)) as [[] ?]; simpl in *; congruence.
Qed.

End LockFacts.

(** C9: [lock()] returns [true] and sets the flag exactly when the flag was
    clear, and returns [false] leaving the flag set otherwise; hence in any
    sequence of [lock()]/[unlock()] calls on one [SoftLock], two successful
    [lock()] calls are always separated by a successful [unlock()]. *)
Theorem softlock_mutual_exclusion :
  (forall T (l : Lock.SoftLock T),
      snd (Lock.lock l) = negb (Lock._locked l) /\
      Lock._locked (fst (Lock.lock l)) = true /\
      (Lock._locked l = true -> fst (Lock.lock l) = l)) /\
  (forall T (l : Lock.SoftLock T) (ops : list Lock.LockOp) (i j : nat),
      (i < j)%nat -> ops !! i = Some Lock.OpLock -> ops !! j = Some Lock.OpLock ->
      Lock.lock_trace l ops !! i = Some true ->
      Lock.lock_trace l ops !! j = Some true ->
      exists k, (i < k < j)%nat /\ ops !! k = Some Lock.OpUnlock /\
                Lock.lock_trace l ops !! k = Some true).
Proof.
  split.
  - intros T [[] inner]; repeat split; done.
  - intros T l ops i j Hij Hi Hj Hti Htj.
    assert (Hlen : (j < length ops)%nat) by (eapply lookup_lt_Some; eauto).
    destruct (LockFacts.locked_until_unlock l ops i j Hi) as [Hk|Hlk]; [lia|done|].
    rewrite (LockFacts.lock_trace_lookup _ _ _ _ Hj) in Htj.
    destruct (Lock.lock_state l (take j ops)) as [[] ?]; simpl in *; congruence.
Qed.

Lemma softlock_mutual_exclusion_witness :
  Lock.lock_trace (Lock.newSoftLock tt) [Lock.OpLock; Lock.OpUnlock; Lock.OpLock]
    = [true; true; true] /\
  exists k, (0 < k < 2)%nat /\
    [Lock.OpLock; Lock.OpUnlock; Lock.OpLock] !! k = Some Lock.OpUnlock /\
    Lock.lock_trace (Lock.newSoftLock tt) [Lock.OpLock; Lock.OpUnlock; Lock.OpLock]
      !! k = Some true.
Proof.
  split; [reflexivity|].
  apply (proj2 softlock_mutual_exclusion unit (Lock.newSoftLock tt)
           [Lock.OpLock; Lock.OpUnlock; Lock.OpLock] 0%nat 2%nat);
    [lia | reflexivity | reflexivity | reflexivity | reflexivity].
Defined.

(* ------------------------------------------------------------------ *)
(** ** Usage ledger *)

Lemma sum_nonneg (us : list Z) :
  Forall (fun x => 0 <= x) us -> 0 <= fold_right Z.add 0 us.
Proof. induction 1; simpl; lia. Qed.

Lemma updateUsageAll_record (s : Usage.Store) (u : UserId) (r t : Z) (us : list Z) :
  s !! u = Some {| Usage.remainingMs := r; Usage.totalUsedMs := t |} ->
  Forall (fun x => 0 <= x) us ->
  Usage.getUsage (Usage.updateUsageAll s u us) u =
    {| Usage.remainingMs := match us with [] => r | _ => Z.max 0 (r - fold_right Z.add 0 us) end;
       Usage.totalUsedMs := t + fold_right Z.add 0 us |}.
Proof.
  revert s r t. induction us as [|x us IH]; intros s r t Hs Hpos.
  - unfold Usage.getUsage, Usage._getUsage. simpl. rewrite Hs. simpl. f_equal. lia.
  - inversion Hpos as [|? ? Hx Hus]; subst.
    change (Usage.updateUsageAll s u (x :: us))
      with (Usage.updateUsageAll (Usage.updateUsage s u x) u us).
    rewrite (IH _ (Z.max (r - x) 0) (t + x)).
    + pose proof (sum_nonneg us Hus).
      destruct us as [|y us']; simpl in *; f_equal; lia.
    + unfold Usage.updateUsage, Usage._getUsage. rewrite Hs. simpl.
      by rewrite lookup_insert_eq.
    + done.
Qed.

(** C7: starting from [{remainingMs: initial, totalUsedMs: 0}] with a
    budget [initial >= 0], after [updateUsage] with non-negative
    [u1..uN] for one user, [getUsage] returns [totalUsedMs = Σ ui] and
    [remainingMs = max(0, initial - Σ ui)]. *)
Theorem usage_ledger_sum (s : Usage.Store) (u : UserId) (initial : Z) (us : list Z) :
  0 <= initial ->
  s !! u = Some (Usage.createUsage initial) ->
  Forall (fun x => 0 <= x) us ->
  Usage.totalUsedMs (Usage.getUsage (Usage.updateUsageAll s u us) u) =
    fold_right Z.add 0 us /\
  Usage.remainingMs (Usage.getUsage (Usage.updateUsageAll s u us) u) =
    Z.max 0 (initial - fold_right Z.add 0 us).
Proof.
  intros Hinit Hs Hpos. rewrite (updateUsageAll_record s u initial 0 us Hs Hpos).
  simpl. split; [lia|]. destruct us; simpl; lia.
Qed.

Lemma usage_ledger_sum_witness :
  let s : Usage.Store := {[ "1" := Usage.createUsage 1000 ]} in
  (0 <= 1000 /\ s !! "1" = Some (Usage.createUsage 1000) /\
   Forall (fun x => 0 <= x) [250; 250; 600]) /\
  (Usage.totalUsedMs (Usage.getUsage (Usage.updateUsageAll s "1" [250; 250; 600]) "1") =
     fold_right Z.add 0 [250; 250; 600] /\
   Usage.remainingMs (Usage.getUsage (Usage.updateUsageAll s "1" [250; 250; 600]) "1") =
     Z.max 0 (1000 - fold_right Z.add 0 [250; 250; 600])).
Proof.
  intros s. split.
  - split; [lia|]. split; [reflexivity|repeat constructor; lia].
  - apply (usage_ledger_sum s "1" 1000 [250; 250; 600]);
      [lia | reflexivity | repeat constructor; lia].
Defined.

(* ------------------------------------------------------------------ *)
(** ** Admission and accounting in [transcribeForUser] *)

Module TranscribeFacts.
Import Transcribe.

Lemma estimateUsageMs_pos (len : nat) : (0 < len)%nat -> 0 < estimateUsageMs len.
Proof.
  intros H. unfold estimateUsageMs, fakeProcessTime, fakeSpeechWordCount,
    ceil_div, BYTES_PER_WORD, MS_PER_WORD.
  pose proof (Z.div_mod (- Z.of_nat len) 16000 ltac:(lia)) as Hdm.
  pose proof (Z.mod_pos_bound (- Z.of_nat len) 16000 ltac:(lia)) as Hb.
  set (q := (- Z.of_nat len) / 16000) in *.
  set (m := (- Z.of_nat len) mod 16000) in *. lia.
Qed.

End TranscribeFacts.

(** C5: with [r] the remaining budget read by [transcribeForUser] and
    [c = ceil(len / BYTES_PER_WORD) * MS_PER_WORD], the call rejects with
    ExceededAllocatedUsage exactly when [r <= 0] or [c > r]; it then does so
    whatever the transcription would do (it is not run) and leaves the store
    unchanged. When [c = r] for a non-empty payload, a transcription that
    finishes completes and the reply's remaining usage is 0. *)
Theorem transcribeForUser_admission :
  forall (s : Usage.Store) (u : UserId) (len : nat) (o : Transcribe.Outcome),
    let r := Usage.remainingMs (Usage.getUsage s u) in
    let c := Transcribe.estimateUsageMs len in
    c = Transcribe.ceil_div (Z.of_nat len) Transcribe.BYTES_PER_WORD
          * Transcribe.MS_PER_WORD /\
    ((exists m, fst (Transcribe.transcribeForUser s u len o)
                  = inl (Transcribe.ExceededAllocatedUsage m)) <->
     (r <= 0 \/ c > r)) /\
    ((r <= 0 \/ c > r) ->
     exists m, forall o', Transcribe.transcribeForUser s u len o'
                          = (inl (Transcribe.ExceededAllocatedUsage m), s)) /\
    ((0 < len)%nat -> c = r ->
     forall text conf, exists resp,
       Transcribe.transcribeForUser s u len (Transcribe.Finished text conf)
         = (inr resp, Usage.updateUsage s u c) /\
       Transcribe.resp_usageUsedMs resp = c /\
       Transcribe.usageRemainingMs resp = 0).
Proof.
  intros s u len o r c. unfold Transcribe.transcribeForUser. fold r. fold c.
  split; [reflexivity|].
  destruct (Z.leb_spec r 0) as [Hr|Hr].
  - split; [split; [intros _; left; exact Hr | intros _; eexists; reflexivity]|].
    split; [intros _; eexists; intros o'; reflexivity|].
    intros Hlen Hc. pose proof (TranscribeFacts.estimateUsageMs_pos len Hlen). lia.
  - destruct (Z.ltb_spec r c) as [Hrc|Hrc].
    + split; [split; [intros _; right; lia | intros _; eexists; reflexivity]|].
      split; [intros _; eexists; intros o'; reflexivity|].
      intros _ Hc. lia.
    + split; [|split].
      * split; [|lia]. intros [m Hm].
        destruct o; simpl in Hm; discriminate.
      * intros [H|H]; lia.
      * intros _ Hc text conf. eexists. split; [reflexivity|].
        simpl. unfold Transcribe.estimateUsageMs in c. subst c r. split; [reflexivity|lia].
Qed.

Lemma transcribeForUser_admission_witness :
  let s : Usage.Store := {[ "1" := Usage.createUsage 250 ]} in
  (0 < 10)%nat /\
  Transcribe.estimateUsageMs 10 = Usage.remainingMs (Usage.getUsage s "1") /\
  exists resp,
    Transcribe.transcribeForUser s "1" 10 (Transcribe.Finished "lorem" 1)
      = (inr resp, Usage.updateUsage s "1" (Transcribe.estimateUsageMs 10)) /\
    Transcribe.resp_usageUsedMs resp = Transcribe.estimateUsageMs 10 /\
    Transcribe.usageRemainingMs resp = 0.
Proof.
  intros s. split; [lia|]. split; [reflexivity|].
  destruct (transcribeForUser_admission s "1" 10 (Transcribe.Finished "lorem" 1))
    as (_ & _ & _ & H).
  apply H; [lia | reflexivity].
Defined.

(** C6: a completed [transcribeForUser] replies with
    [usageUsedMs = ceil(len / 16000) * 250], updates the store with exactly
    that value, and replies [usageRemainingMs = max(0, r - usageUsedMs)]
    where [r] is the remaining budget it read. *)
Theorem transcribeForUser_reply_usage (s : Usage.Store) (u : UserId) (len : nat)
    (o : Transcribe.Outcome) (resp : Transcribe.TranscribeResponse) (s' : Usage.Store) :
  Transcribe.transcribeForUser s u len o = (inr resp, s') ->
  Transcribe.resp_usageUsedMs resp
    = Transcribe.ceil_div (Z.of_nat len) 16000 * 250 /\
  s' = Usage.updateUsage s u (Transcribe.resp_usageUsedMs resp) /\
  Transcribe.usageRemainingMs resp
    = Z.max 0 (Usage.remainingMs (Usage.getUsage s u) - Transcribe.resp_usageUsedMs resp).
Proof.
  unfold Transcribe.transcribeForUser.
  destruct (Z.leb_spec (Usage.remainingMs (Usage.getUsage s u)) 0) as [|Hpos]; [discriminate|].
  destruct (Z.ltb_spec (Usage.remainingMs (Usage.getUsage s u))
              (Transcribe.estimateUsageMs len)) as [|Hge]; [discriminate|].
  destruct o as [text conf|]; simpl; [|discriminate].
  intros Heq. injection Heq as <- <-. simpl.
  unfold Transcribe.estimateUsageMs in Hge.
  split; [reflexivity|]. split; [reflexivity|]. lia.
Qed.

Lemma transcribeForUser_reply_usage_witness :
  let s : Usage.Store := {[ "1" := Usage.createUsage 1000 ]} in
  exists resp s',
    Transcribe.transcribeForUser s "1" 10 (Transcribe.Finished "lorem" 1) = (inr resp, s') /\
    (Transcribe.resp_usageUsedMs resp = Transcribe.ceil_div (Z.of_nat 10) 16000 * 250 /\
     s' = Usage.updateUsage s "1" (Transcribe.resp_usageUsedMs resp) /\
     Transcribe.usageRemainingMs resp
       = Z.max 0 (Usage.remainingMs (Usage.getUsage s "1") - Transcribe.resp_usageUsedMs resp)).
Proof.
  intros s. eexists _, _. split; [reflexivity|].
  apply (transcribeForUser_reply_usage s "1" 10 (Transcribe.Finished "lorem" 1)).
  reflexivity.
Defined.

(* ------------------------------------------------------------------ *)
(** ** The frame id codec (util/buffer) *)

Module FrameFacts.
Import Frame.

Lemma land_255 (x : Z) : Z.land x 255 = x mod 256.
Proof. change 255 with (Z.ones 8). rewrite Z.land_ones by lia. reflexivity. Qed.

Lemma read_write_UInt32BE (k : Z) (rest : Buffer) :
  0 <= k < 2 ^ 32 ->
  exists idBuffer, writeUInt32BE k = inr idBuffer /\ length idBuffer = 4%nat /\
    readUInt32BE (idBuffer ++ rest) = inr k.
Proof.
  intros Hk. unfold writeUInt32BE.
  replace ((0 <=? k) && (k <=? 4294967295)) with true
    by (symmetry; apply andb_true_intro; split; apply Z.leb_le; lia).
  eexists. split; [reflexivity|]. split; [reflexivity|].
  simpl. f_equal. rewrite !land_255, !Z.shiftr_div_pow2 by lia.
  change (2 ^ 24) with 16777216 in *. change (2 ^ 16) with 65536.
  change (2 ^ 8) with 256. change (2 ^ 32) with 4294967296 in Hk.
  Z.div_mod_to_equations. lia.
Qed.

End FrameFacts.

(** C8: for [0 <= k < 2^32] and a non-empty payload [p], the frame
    [insertIdIntoBuffer k p] decodes with [getIdFromBuffer] to [(k, p)];
    [new QueueEntry] accepts it with id [k] and data [p], and the reply
    [{ id: queueEntry.id, ...result }] of [processTranscribe] has [id = k]
    whatever the transcription result. *)
Theorem frame_id_roundtrip (k : Z) (p : Frame.Buffer) :
  0 <= k < 2 ^ 32 -> p <> [] ->
  exists frame,
    Frame.insertIdIntoBuffer k p = inr frame /\
    Frame.getIdFromBuffer frame = inr (k, p) /\
    exists e, Frame.newQueueEntry frame = inr e /\
      Frame.qe_id e = k /\ Frame.qe_data e = p /\
      forall resp, Frame.obj_get (Frame.reply_obj e resp) "id" = Some (Frame.JNum k).
Proof.
  intros Hk Hp.
  destruct (FrameFacts.read_write_UInt32BE k p Hk) as (idb & Hw & Hlen & Hr).
  unfold Frame.insertIdIntoBuffer. rewrite Hw.
  assert (Hget : Frame.getIdFromBuffer (idb ++ p) = inr (k, p)).
  { unfold Frame.getIdFromBuffer. rewrite Hr.
    rewrite drop_app_length' by (symmetry; exact Hlen). reflexivity. }
  eexists. split; [reflexivity|]. split; [exact Hget|].
  unfold Frame.newQueueEntry. rewrite Hget.
  destruct (Nat.eqb_spec (length p) 0) as [H0|_].
  { apply nil_length_inv in H0. contradiction. }
  eexists. split; [reflexivity|]. split; [reflexivity|]. split; [reflexivity|].
  intros resp. reflexivity.
Qed.

Lemma frame_id_roundtrip_witness :
  (0 <= 4000000000 < 2 ^ 32 /\ [7; 8; 9] <> @nil Z) /\
  exists frame,
    Frame.insertIdIntoBuffer 4000000000 [7; 8; 9] = inr frame /\
    Frame.getIdFromBuffer frame = inr (4000000000, [7; 8; 9]) /\
    exists e, Frame.newQueueEntry frame = inr e /\
      Frame.qe_id e = 4000000000 /\ Frame.qe_data e = [7; 8; 9] /\
      forall resp, Frame.obj_get (Frame.reply_obj e resp) "id"
                   = Some (Frame.JNum 4000000000).
Proof.
  split; [split; [lia | discriminate]|].
  apply frame_id_roundtrip; [lia | discriminate].
Defined.

(* ------------------------------------------------------------------ *)
(** ** The PingPongBuffer queue against the array queue (util/queue) *)

Module QueueFacts.
Import Queues.

Section Simulation.
Context {T : Type}.

Lemma lookup_map_Some (R : list T) (i : nat) :
  map Some R !! i = Some <$> R !! i.
Proof.
  revert i. induction R as [|x R IH]; intros [|i]; simpl; auto.
Qed.

Lemma take_lookup_lt {A} (l : list A) (i n : nat) :
  (i < n)%nat -> take n l !! i = l !! i.
Proof. intros H. rewrite lookup_take. destruct (decide _); [reflexivity|lia]. Qed.

Lemma pq_repr_new : pq_repr (@pq_new T) [].
Proof.
  split; [reflexivity|]. split; [reflexivity|].
  exists [], []. repeat split; simpl; auto.
Qed.

Lemma pq_repr_length (q : @PQueue T) (l : list T) :
  pq_repr q l ->
  length l = (_readSize (buffer q) - readIndex q + _writeSize (buffer q))%nat.
Proof.
  intros (_ & _ & R & W & _ & HR & _ & HW & Hri & _ & ->).
  rewrite length_app, length_drop. lia.
Qed.

(** After [flush] the same items are held, and either the read buffer has
    an unread item or the queue is empty. *)
Lemma pq_flush_repr (q : @PQueue T) (l : list T) :
  pq_repr q l ->
  pq_repr (pq_flush q) l /\
  ((readIndex (pq_flush q) < _readSize (buffer (pq_flush q)))%nat \/
   ((_readSize (buffer (pq_flush q)) <= readIndex (pq_flush q))%nat /\ l = [])).
Proof.
  intros Hq. pose proof Hq as (Hlw & Hlr & R & W & HtR & HR & HtW & HW & Hri & Hhw & Hl).
  unfold pq_flush.
  destruct (hasWritten q) eqn:Ehw; simpl.
  - destruct (Nat.ltb_spec (readIndex q) (_readSize (buffer q))) as [Hlt|Hge].
    + split; [exact Hq | left; exact Hlt].
    + assert (Hd : drop (readIndex q) R = []) by (apply drop_ge; lia).
      split.
      * split; [exact Hlr|]. split; [exact Hlw|].
        exists W, []. simpl.
        repeat split; auto; try lia. rewrite Hl, Hd. simpl. rewrite app_nil_r. reflexivity.
      * destruct (Nat.eqb_spec (_writeSize (buffer q)) 0) as [H0|H0].
        -- right. simpl. split; [lia|].
           rewrite Hl, Hd. simpl. apply nil_length_inv. lia.
        -- left. simpl. lia.
  - specialize (Hhw eq_refl).
    split; [exact Hq|].
    destruct (Nat.ltb_spec (readIndex q) (_readSize (buffer q))) as [Hlt|Hge];
      [left; exact Hlt|right; split; [exact Hge|]].
    assert (Hd : drop (readIndex q) R = []) by (apply drop_ge; lia).
    rewrite Hl, Hd. simpl. apply nil_length_inv. lia.
Qed.

Lemma pq_flush_ws (q : @PQueue T) :
  (_writeSize (buffer (pq_flush q)) <= _writeSize (buffer q))%nat.
Proof.
  unfold pq_flush. destruct (hasWritten q); simpl; [|lia].
  destruct (readIndex q <? _readSize (buffer q))%nat; simpl; lia.
Qed.

(** One call: either [enqueue] throws "Write buffer overflow" on a full
    write buffer, or both queues return the same value and keep holding
    the same items. *)
Lemma pq_op_sim (q : @PQueue T) (l : list T) (op : QOp T) :
  pq_repr q l ->
  match pq_op q op with
  | inl e => e = ErrGeneric "Write buffer overflow" /\ is_enqueue op = true /\
             _writeSize (buffer q) = 1024%nat
  | inr (q', r) => pq_repr q' (fst (aq_op l op)) /\ r = snd (aq_op l op) /\
             (_writeSize (buffer q') <= _writeSize (buffer q)
                + (if is_enqueue op then 1 else 0))%nat
  end.
Proof.
  intros Hq. destruct op as [x| | | | | |]; simpl.
  - (* enqueue *)
    pose proof Hq as (Hlw & Hlr & R & W & HtR & HR & HtW & HW & Hri & Hhw & Hl).
    unfold pp_write.
    destruct (Nat.leb_spec (length (_writeBuffer (buffer q))) (_writeSize (buffer q)))
      as [Hfull|Hroom].
    + assert (length (take (_writeSize (buffer q)) (_writeBuffer (buffer q)))
                = _writeSize (buffer q)) as Ht
        by (rewrite HtW, length_map; exact HW).
      rewrite length_take in Ht. split; [reflexivity|]. split; [reflexivity|]. lia.
    + simpl. split; [|split; [reflexivity|lia]].
      unfold pq_repr; simpl. split; [rewrite length_insert; exact Hlw|]. split; [exact Hlr|].
      exists R, (W ++ [x]). simpl.
      split; [exact HtR|]. split; [exact HR|].
      split.
      { rewrite (take_S_r _ _ (Some x)) by (apply list_lookup_insert_eq; lia).
        rewrite take_insert. destruct (decide _); [lia|].
        rewrite HtW, map_app. reflexivity. }
      split; [rewrite length_app; simpl; lia|].
      split; [exact Hri|]. split; [discriminate|].
      rewrite Hl, app_assoc. reflexivity.
  - (* dequeue *)
    pose proof (pq_flush_ws q) as Hws.
    destruct (pq_flush_repr q l Hq) as [Hf [Hlt|[Hge ->]]];
      set (q1 := pq_flush q) in *.
    + pose proof Hf as (Hlw & Hlr & R & W & HtR & HR & HtW & HW & Hri & Hhw & Hl).
      destruct (Nat.leb_spec (_readSize (buffer q1)) (readIndex q1)) as [|_]; [lia|].
      destruct (lookup_lt_is_Some_2 R (readIndex q1)) as [y Hy]; [lia|].
      assert (Hrd : pp_read (buffer q1) (readIndex q1) = Some y).
      { unfold pp_read. destruct (Nat.leb_spec (_readSize (buffer q1)) (readIndex q1)); [lia|].
        assert (_readBuffer (buffer q1) !! readIndex q1 = Some (Some y)) as ->; [|reflexivity].
        rewrite <- (take_lookup_lt _ _ _ Hlt), HtR, lookup_map_Some, Hy.
        reflexivity. }
      rewrite Hrd, Hl, (drop_S R y (readIndex q1) Hy). simpl.
      split; [|split; [reflexivity|lia]].
      split; [exact Hlw|]. split; [exact Hlr|].
      exists R, W. simpl. repeat split; auto; lia.
    + destruct (Nat.leb_spec (_readSize (buffer q1)) (readIndex q1)) as [_|]; [|lia].
      simpl. split; [exact Hf|]. split; [reflexivity|lia].
  - (* peek *)
    pose proof (pq_flush_ws q) as Hws.
    destruct (pq_flush_repr q l Hq) as [Hf [Hlt|[Hge ->]]];
      set (q1 := pq_flush q) in *.
    + pose proof Hf as (Hlw & Hlr & R & W & HtR & HR & HtW & HW & Hri & Hhw & Hl).
      destruct (lookup_lt_is_Some_2 R (readIndex q1)) as [y Hy]; [lia|].
      assert (Hrd : pp_read (buffer q1) (readIndex q1) = Some y).
      { unfold pp_read. destruct (Nat.leb_spec (_readSize (buffer q1)) (readIndex q1)); [lia|].
        assert (_readBuffer (buffer q1) !! readIndex q1 = Some (Some y)) as ->; [|reflexivity].
        rewrite <- (take_lookup_lt _ _ _ Hlt), HtR, lookup_map_Some, Hy.
        reflexivity. }
      rewrite Hrd. split; [exact Hf|]. split; [|lia].
      rewrite Hl, (drop_S R y (readIndex q1) Hy). reflexivity.
    + unfold pp_read. destruct (Nat.leb_spec (_readSize (buffer q1)) (readIndex q1)); [|lia].
      split; [exact Hf|]. split; [reflexivity|lia].
  - (* isEmpty *)
    split; [exact Hq|]. split; [|lia]. f_equal.
    pose proof (pq_repr_length q l Hq) as Hlen.
    pose proof Hq as (_ & _ & R & W & _ & _ & _ & _ & Hri & _ & _).
    unfold pp_size.
    destruct (Nat.leb_spec (_readSize (buffer q) + _writeSize (buffer q)) (readIndex q));
      destruct (Nat.eqb_spec (length l) 0); auto; lia.
  - (* size *)
    split; [exact Hq|]. split; [|lia]. f_equal.
    pose proof (pq_repr_length q l Hq) as Hlen.
    pose proof Hq as (_ & _ & R & W & _ & _ & _ & _ & Hri & _ & _).
    unfold pp_size. rewrite Hlen. lia.
  - (* clear *)
    pose proof Hq as (Hlw & Hlr & _).
    split; [|split; [reflexivity|simpl; lia]].
    split; [exact Hlw|]. split; [exact Hlr|].
    exists [], []. simpl. repeat split; auto.
  - (* toArray *)
    split; [exact Hq|]. split; [|lia].
    pose proof Hq as (Hlw & Hlr & R & W & HtR & HR & HtW & HW & Hri & Hhw & Hl).
    unfold pp_getReadSlice, pp_getWriteSlice. rewrite HtR, Hl, skipn_map, map_app.
    f_equal. f_equal. destruct (hasWritten q); [exact HtW|].
    rewrite (nil_length_inv W) by (rewrite HW; auto). reflexivity.
Qed.

(** A sequence of calls: the PingPong queue returns a prefix of what the
    array queue returns, all of it when nothing is thrown, and only an
    overflowing [enqueue] throws. *)
Lemma pq_run_sim (ops : list (QOp T)) :
  forall (q : @PQueue T) (l : list T), pq_repr q l ->
  let '(rs, err) := pq_run q ops in
  rs `prefix_of` aq_run l ops /\
  (err = None -> rs = aq_run l ops) /\
  (forall e, err = Some e ->
     e = ErrGeneric "Write buffer overflow" /\
     exists x, ops !! length rs = Some (Enqueue x)).
Proof.
  induction ops as [|op ops IH]; intros q l Hq; simpl.
  - split; [reflexivity|]. split; [reflexivity|]. discriminate.
  - pose proof (pq_op_sim q l op Hq) as Hs.
    destruct (pq_op q op) as [e|[q' r]].
    + destruct Hs as (-> & Henq & _).
      split; [apply prefix_nil|]. split; [discriminate|].
      intros e' [= <-]. split; [reflexivity|].
      destruct op as [x| | | | | |]; try discriminate Henq. exists x. reflexivity.
    + destruct Hs as (Hq' & -> & _).
      specialize (IH q' (fst (aq_op l op)) Hq').
      destruct (pq_run q' ops) as [rs err].
      destruct (aq_op l op) as [l' r']. simpl in IH |- *.
      destruct IH as (Hp & Hn & He).
      split; [apply prefix_cons; exact Hp|].
      split; [intros H; rewrite (Hn H); reflexivity|].
      exact He.
Qed.

Lemma pq_run_no_overflow (ops : list (QOp T)) :
  forall (q : @PQueue T) (l : list T), pq_repr q l ->
  (_writeSize (buffer q) + length (List.filter is_enqueue ops) <= 1024)%nat ->
  snd (pq_run q ops) = None.
Proof.
  induction ops as [|op ops IH]; intros q l Hq Hle; simpl; [reflexivity|].
  pose proof (pq_op_sim q l op Hq) as Hs.
  destruct (pq_op q op) as [e|[q' r]].
  - destruct Hs as (_ & Henq & Hfull). simpl in Hle. rewrite Henq in Hle. simpl in Hle. lia.
  - destruct Hs as (Hq' & _ & Hws).
    specialize (IH q' (fst (aq_op l op)) Hq').
    destruct (pq_run q' ops) as [rs err]. simpl in IH |- *.
    apply IH. simpl in Hle. destruct (is_enqueue op); simpl in Hle, Hws; lia.
Qed.

End Simulation.
End QueueFacts.

(** C10 (counterexample): 1025 [enqueue] calls with no [dequeue]. The
    PingPong queue throws "Write buffer overflow" at the 1025th call (its
    write buffer holds 1024 items), where the array queue accepts it. *)
Lemma pingpong_overflow_counterexample :
  let ops := repeat (@Queues.Enqueue nat 0%nat) 1025 in
  Queues.pq_run Queues.pq_new ops
    = (repeat Queues.RUnit 1024, Some (ErrGeneric "Write buffer overflow")) /\
  Queues.aq_run [] ops = repeat Queues.RUnit 1025 /\
  fst (Queues.pq_run Queues.pq_new ops) <> Queues.aq_run [] ops.
Proof.
  intros ops.
  assert (H1 : Queues.pq_run Queues.pq_new ops
            = (repeat Queues.RUnit 1024, Some (ErrGeneric "Write buffer overflow")))
    by (vm_compute; reflexivity).
  assert (H2 : Queues.aq_run [] ops = repeat Queues.RUnit 1025)
    by (vm_compute; reflexivity).
  split; [exact H1|]. split; [exact H2|].
  rewrite H1, H2. simpl fst. intros H. apply (f_equal length) in H.
  rewrite !repeat_length in H. discriminate H.
Qed.

(** C10 (amended): from a new queue, on every sequence of calls the
    PingPong queue returns the same value as the array queue at every step
    up to the first [enqueue] it rejects with "Write buffer overflow"
    (1024 items written since the last swap), which the array queue
    accepts; with no such overflow (in particular with at most 1024
    enqueue calls) the two return identical results, FIFO included. *)
Theorem pingpong_queue_refines_array_queue (T : Type) (ops : list (Queues.QOp T)) :
  let '(rs, err) := Queues.pq_run Queues.pq_new ops in
  rs `prefix_of` Queues.aq_run [] ops /\
  (err = None -> rs = Queues.aq_run [] ops) /\
  (forall e, err = Some e ->
     e = ErrGeneric "Write buffer overflow" /\
     exists x, ops !! length rs = Some (Queues.Enqueue x)) /\
  ((length (List.filter Queues.is_enqueue ops) <= 1024)%nat ->
     rs = Queues.aq_run [] ops).
Proof.
  pose proof (QueueFacts.pq_run_sim ops Queues.pq_new [] QueueFacts.pq_repr_new) as Hs.
  pose proof (QueueFacts.pq_run_no_overflow ops Queues.pq_new [] QueueFacts.pq_repr_new) as Hn.
  destruct (Queues.pq_run Queues.pq_new ops) as [rs err].
  destruct Hs as (Hp & HN & He).
  split; [exact Hp|]. split; [exact HN|]. split; [exact He|].
  intros Hle. apply HN. apply Hn. simpl. lia.
Qed.

Lemma pingpong_queue_refines_array_queue_witness :
  (length (List.filter Queues.is_enqueue
     [Queues.Enqueue 1%nat; Queues.Enqueue 2%nat; Queues.Dequeue; Queues.ToArray]) <= 1024)%nat /\
  fst (Queues.pq_run Queues.pq_new
     [Queues.Enqueue 1%nat; Queues.Enqueue 2%nat; Queues.Dequeue; Queues.ToArray])
  = Queues.aq_run []
     [Queues.Enqueue 1%nat; Queues.Enqueue 2%nat; Queues.Dequeue; Queues.ToArray].
Proof.
  split; [simpl; lia|].
  pose proof (pingpong_queue_refines_array_queue nat
    [Queues.Enqueue 1%nat; Queues.Enqueue 2%nat; Queues.Dequeue; Queues.ToArray]) as H.
  destruct (Queues.pq_run Queues.pq_new
    [Queues.Enqueue 1%nat; Queues.Enqueue 2%nat; Queues.Dequeue; Queues.ToArray])
    as [rs err].
  destruct H as (_ & _ & _ & H). apply H. simpl. lia.
Defined.

(* ------------------------------------------------------------------ *)
(** ** The dispatcher's concurrency bound *)

Module DispatcherFacts.
Import Dispatcher.

Lemma drun_reach (m : nat) (r : bool) (s0 : DState) (evs : list Event) :
  forall s s', reach m r s0 s -> drun m r s evs = Some s' -> reach m r s0 s'.
Proof.
  induction evs as [|ev evs IH]; intros s s' Hr Hd; simpl in Hd.
  - injection Hd as <-. exact Hr.
  - destruct (dstep m r s ev) as [s1|] eqn:E; [|discriminate].
    apply (IH s1 s'); [eapply reach_step; eauto | exact Hd].
Qed.

End DispatcherFacts.

(** C1 (violated): with [maxConcurrent = 5], six users with a Ready
    session each and a frame queued (user "a" two) drive [queueRunner] to
    six transcription tasks started and not completed, more than
    MAX_CONCURRENT. [set.delete(transcribePromise)] removes the yielded
    promise, not the [.finally] promise the set holds, and [set.clear()]
    after the race forgets the tasks still running; the set then counts
    fewer promises than there are tasks in flight. This holds for both
    [rejectOnAbort] variants. *)
Theorem queueRunner_exceeds_max_concurrent (race_at_once : bool) :
  exists s, Dispatcher.reach 5 race_at_once
              (Dispatcher.runner_init Scenarios.c1_world) s /\
    (5 < Dispatcher.in_flight s)%nat /\
    (length (Dispatcher.dset s) < Dispatcher.in_flight s)%nat.
Proof.
  assert (H : match Dispatcher.drun 5 race_at_once
                      (Dispatcher.runner_init Scenarios.c1_world) Scenarios.c1_events with
              | Some s => (5 < Dispatcher.in_flight s)%nat /\
                          (length (Dispatcher.dset s) < Dispatcher.in_flight s)%nat
              | None => False
              end) by (destruct race_at_once; vm_compute; lia).
  revert H.
  destruct (Dispatcher.drun 5 race_at_once
              (Dispatcher.runner_init Scenarios.c1_world) Scenarios.c1_events)
    as [s|] eqn:E; [intros H | intros []].
  exists s. split; [|exact H].
  eapply DispatcherFacts.drun_reach; [apply Dispatcher.reach_refl | exact E].
Qed.

(* ------------------------------------------------------------------ *)
(** ** The session registry *)

Module RegistryFacts.
Import Gateway.

Lemma qm_lookup_delete_eq (qm : list (UserId * nat)) (u : UserId) :
  qm_lookup (qm_delete qm u) u = None.
Proof.
  induction qm as [|[k v] qm IH]; [reflexivity|].
  unfold qm_delete in *. rewrite filter_cons. simpl.
  destruct (String.eqb_spec k u) as [->|Hne]; simpl.
  - exact IH.
  - destruct (String.eqb_spec k u); [contradiction|exact IH].
Qed.

Lemma qm_lookup_delete_ne (qm : list (UserId * nat)) (u v : UserId) :
  v <> u -> qm_lookup (qm_delete qm u) v = qm_lookup qm v.
Proof.
  intros Hvu. induction qm as [|[k x] qm IH]; [reflexivity|].
  unfold qm_delete in *. rewrite filter_cons. simpl.
  destruct (String.eqb_spec k u) as [->|Hne]; simpl.
  - destruct (String.eqb_spec u v); [congruence|exact IH].
  - destruct (String.eqb_spec k v); [reflexivity|exact IH].
Qed.

Lemma on_message_socket_map (w : World) (sid : nat) (data : Frame.Buffer) :
  socket_map (on_message w sid data) = socket_map w.
Proof.
  assert (Hu : forall w0 i f, socket_map (update_socket w0 i f) = socket_map w0)
    by (intros w0 i f; unfold update_socket; destruct (clients w0 !! i); reflexivity).
  assert (Hh : socket_map (snd (clientSocketMessageHandler w sid data)) = socket_map w).
  { unfold clientSocketMessageHandler.
    destruct (getUserIdFromSocketOrThrow w sid) as [e|u]; [reflexivity|].
    destruct (negb (isReady w sid)); [apply Hu|].
    assert (Hg : socket_map (fst (getOrInitQueue w u)) = socket_map w)
      by (unfold getOrInitQueue; destruct (qm_lookup (queue_map w) u); reflexivity).
    destruct (getOrInitQueue w u) as [w1 lid]. simpl in Hg.
    destruct (Frame.newQueueEntry data) as [e|entry]; [exact Hg|].
    simpl. unfold enqueue. destruct (locks w1 !! lid); exact Hg. }
  unfold on_message. destruct (clientSocketMessageHandler w sid data) as [[e|] w1]; exact Hh.
Qed.

(** With no user registered, [processQueue] yields nothing. *)
Lemma processQueue_next_no_sockets (w : World) (ks : list UserId) :
  socket_map w = ∅ -> Dispatcher.processQueue_next w ks = (w, None).
Proof.
  intros H. induction ks as [|u ks IH]; simpl; [reflexivity|].
  destruct (aborted w); [reflexivity|]. rewrite H, lookup_empty. exact IH.
Qed.

(** From a state with no user registered and no task in flight, the
    dispatcher never starts a task. *)
Lemma no_sockets_no_tasks (maxConcurrent : nat) (race_at_once : bool)
    (s0 s : Dispatcher.DState) :
  socket_map (Dispatcher.dw s0) = ∅ -> Dispatcher.dflight s0 = [] ->
  Dispatcher.reach maxConcurrent race_at_once s0 s -> Dispatcher.dflight s = [].
Proof.
  intros H0 F0 Hr.
  enough (socket_map (Dispatcher.dw s) = ∅ /\ Dispatcher.dflight s = []) by tauto.
  induction Hr as [|s ev s' Hr [Hs Fs] Hstep]; [auto|].
  destruct ev as [| n | sid data |]; simpl in Hstep.
  - unfold Dispatcher.runner_step in Hstep.
    destruct (Dispatcher.dphase s) as [| ks | ks |]; [| | |discriminate].
    + destruct (aborted (Dispatcher.dw s)); injection Hstep as <-; auto.
    + rewrite (processQueue_next_no_sockets _ ks Hs) in Hstep. injection Hstep as <-. auto.
    + destruct race_at_once; [injection Hstep as <-; auto|].
      destruct (aborted (Dispatcher.dw s)); [injection Hstep as <-; auto|].
      destruct (existsb _ _); [injection Hstep as <-; auto | discriminate].
  - unfold Dispatcher.task_done in Hstep. rewrite Fs in Hstep. discriminate.
  - injection Hstep as <-. simpl. rewrite on_message_socket_map. auto.
  - injection Hstep as <-. simpl. auto.
Qed.

End RegistryFacts.

(** C2 (failing input): user "1" connects on socket 0, then on socket 1;
    socket 1 is the registered session and socket 0 was closed as
    replaced. The close handler of socket 0 then removes the registration
    of socket 1. When socket 0 emits 'close', socket 1 stays open and
    Ready: a frame it sends is queued, yet the dispatcher never starts a
    task for it. *)
Lemma close_handler_unregisters_successor :
  Gateway.socket_map Scenarios.c2_world2 !! "1" = Some 1%nat /\
  Gateway.getUserIdFromSocketOrThrow Scenarios.c2_world2 0 = inr "1" /\
  option_map Gateway.sock_close (Gateway.clients Scenarios.c2_world2 !! 0%nat)
    = Some (Some (Close.PolicyViolation,
                  {| Close.cr_error := "Connection replaced";
                     Close.cr_code := Close.ConnectionReplacedError |})) /\
  (exists w3, Gateway.clientSocketCloseHandler Scenarios.c2_world2 0 = inr w3 /\
              Gateway.socket_map w3 !! "1" = None) /\
  exists s1 s2,
    Environment.full_run 5 false (Dispatcher.runner_init Scenarios.c2_world2)
      [Environment.Env (Environment.SocketClose 0)] = Some s1 /\
    Gateway.isOpen (Dispatcher.dw s1) 1 = true /\
    Gateway.isReady (Dispatcher.dw s1) 1 = true /\
    Dispatcher.dstep 5 false s1 (Dispatcher.Message 1 Scenarios.c1_frame) = Some s2 /\
    option_map Lock._inner
      (match Gateway.qm_lookup (Gateway.queue_map (Dispatcher.dw s2)) "1" with
       | Some lid => Gateway.locks (Dispatcher.dw s2) !! lid
       | None => None end)
      = Some [{| Frame.qe_id := 1; Frame.qe_data := [7] |}] /\
    forall s, Dispatcher.reach 5 false s1 s -> Dispatcher.dflight s = [].
Proof.
  split; [reflexivity|]. split; [reflexivity|]. split; [reflexivity|].
  split; [eexists; split; reflexivity|].
  set (s1 := default (Dispatcher.runner_init Scenarios.c2_world2)
               (Environment.full_run 5 false (Dispatcher.runner_init Scenarios.c2_world2)
                  [Environment.Env (Environment.SocketClose 0)])).
  exists s1. eexists.
  split; [vm_compute; reflexivity|]. split; [vm_compute; reflexivity|].
  split; [vm_compute; reflexivity|]. split; [reflexivity|].
  split; [vm_compute; reflexivity|].
  intros s Hr. apply (RegistryFacts.no_sockets_no_tasks 5 false s1 s); [| |exact Hr];
    vm_compute; reflexivity.
Qed.

(** C2 (violated): the close handler of a session of user [u] removes the
    mapping of [u] in [USER_ID_SOCKET_MAP] and [USER_ID_QUEUE_MAP] whatever
    session is registered for [u], a distinct successor included, instead
    of removing it only for the registered session; the entries of other
    users and the sockets are left unchanged. *)
Theorem clientSocketCloseHandler_unconditional (w : Gateway.World) (sid : nat)
    (u : UserId) (w' : Gateway.World) :
  Gateway.getUserIdFromSocketOrThrow w sid = inr u ->
  Gateway.clientSocketCloseHandler w sid = inr w' ->
  Gateway.socket_map w' !! u = None /\
  Gateway.qm_lookup (Gateway.queue_map w') u = None /\
  (forall v, v <> u ->
     Gateway.socket_map w' !! v = Gateway.socket_map w !! v /\
     Gateway.qm_lookup (Gateway.queue_map w') v = Gateway.qm_lookup (Gateway.queue_map w) v) /\
  Gateway.clients w' = Gateway.clients w.
Proof.
  intros Hu. unfold Gateway.clientSocketCloseHandler. rewrite Hu.
  intros [= <-]. simpl.
  split; [apply lookup_delete_eq|].
  split; [apply RegistryFacts.qm_lookup_delete_eq|].
  split; [|reflexivity].
  intros v Hv. split.
  - apply lookup_delete_ne. congruence.
  - apply RegistryFacts.qm_lookup_delete_ne. exact Hv.
Qed.

Lemma clientSocketCloseHandler_unconditional_witness :
  exists w',
    Gateway.getUserIdFromSocketOrThrow Scenarios.c2_world2 0 = inr "1" /\
    Gateway.clientSocketCloseHandler Scenarios.c2_world2 0 = inr w' /\
    (Gateway.socket_map w' !! "1" = None /\
     Gateway.qm_lookup (Gateway.queue_map w') "1" = None /\
     (forall v, v <> "1" ->
        Gateway.socket_map w' !! v = Gateway.socket_map Scenarios.c2_world2 !! v /\
        Gateway.qm_lookup (Gateway.queue_map w') v
          = Gateway.qm_lookup (Gateway.queue_map Scenarios.c2_world2) v) /\
     Gateway.clients w' = Gateway.clients Scenarios.c2_world2).
Proof.
  exists (match Gateway.clientSocketCloseHandler Scenarios.c2_world2 0 with
          | inr w' => w' | inl _ => Scenarios.c2_world2 end).
  split; [reflexivity|]. split; [reflexivity|].
  apply (clientSocketCloseHandler_unconditional Scenarios.c2_world2 0 "1");
    reflexivity.
Defined.

(* ------------------------------------------------------------------ *)
(** ** Errors on a session and the process-level handlers *)

Module FaultFacts.
Import Close Frame Gateway.

Lemma shutdown_closes (w : World) (sid : nat) (s : Socket) :
  clients w !! sid = Some s -> sock_state s = OPEN ->
  aborted (shutdown w) = true /\
  option_map sock_close (clients (shutdown w) !! sid)
    = Some (Some (GoingAway, {| cr_error := "server closing";
                                cr_code := ShuttingDown |})).
Proof.
  intros Hs Ho. split; [reflexivity|].
  unfold shutdown. simpl. rewrite lookup_fmap, Hs. simpl.
  unfold close_sock. rewrite decide_True by exact Ho. reflexivity.
Qed.

Lemma getUserId_of (w : World) (sid : nat) (s : Socket) (u : UserId) :
  clients w !! sid = Some s -> sock_user s = Some u ->
  getUserIdFromSocketOrThrow w sid = inr u.
Proof.
  intros Hs Hu. unfold getUserIdFromSocketOrThrow. rewrite Hs.
  destruct s; simpl in Hu; subst; reflexivity.
Qed.

(** [new QueueEntry] on a frame of at most 4 bytes throws. *)
Lemma newQueueEntry_short (data : Buffer) :
  (length data <= 4)%nat ->
  newQueueEntry data
    = inl (if (length data =? 4)%nat then ErrInvalidData "invalid message"
           else ErrRange "ERR_BUFFER_OUT_OF_BOUNDS").
Proof.
  intros H. destruct data as [|a [|b [|c [|d [|e rest]]]]]; simpl in *;
    try reflexivity; lia.
Qed.

Lemma getOrInitQueue_facts (w : World) (u : UserId) (w1 : World) (lid : nat) :
  getOrInitQueue w u = (w1, lid) ->
  clients w1 = clients w /\
  (forall k l', locks w1 !! k = Some l' ->
     Lock._inner l' = [] \/
     exists l, locks w !! k = Some l /\ Lock._inner l' = Lock._inner l).
Proof.
  unfold getOrInitQueue. destruct (qm_lookup (queue_map w) u) as [lid0|].
  - intros [= <- <-]. split; [reflexivity|]. intros k l' H. right. eauto.
  - intros [= <- <-]. split; [reflexivity|]. intros k l' H. simpl in H.
    destruct (decide (k = next_lock w)) as [->|Hne].
    + rewrite lookup_insert_eq in H. injection H as <-. left. reflexivity.
    + rewrite lookup_insert_ne in H by congruence. right. eauto.
Qed.

Lemma update_socket_other (w : World) (sid sid' : nat) (f : Socket -> Socket) :
  sid' <> sid -> clients (update_socket w sid f) !! sid' = clients w !! sid'.
Proof.
  intros Hne. unfold update_socket. destruct (clients w !! sid); [|reflexivity].
  simpl. apply lookup_insert_ne. congruence.
Qed.

End FaultFacts.

(** C3 (violated): on a Ready session whose socket is open, a frame of at
    most 4 bytes (no payload after the sequence id) makes the message
    listener throw: a RangeError (ERR_BUFFER_OUT_OF_BOUNDS) under 4 bytes,
    the InvalidData error "invalid message" at exactly 4. Nothing is
    enqueued, but [clientSocketMessageHandler] has no [catch]: the
    exception reaches the process's [uncaughtException] handler, which shuts
    the server down, and the session is closed with GoingAway (1001) and
    ShuttingDown (5), not InvalidData (1007) and InvalidData (7). *)
Theorem invalid_frame_shuts_server_down (w : Gateway.World) (sid : nat)
    (s : Gateway.Socket) (u : UserId) (data : Frame.Buffer) :
  Gateway.clients w !! sid = Some s ->
  Gateway.sock_user s = Some u ->
  Gateway.sock_ready s = true ->
  Gateway.sock_state s = Gateway.OPEN ->
  (length data <= 4)%nat ->
  fst (Gateway.clientSocketMessageHandler w sid data)
    = Some (if (length data =? 4)%nat then ErrInvalidData "invalid message"
            else ErrRange "ERR_BUFFER_OUT_OF_BOUNDS") /\
  (forall lid l', Gateway.locks (Gateway.on_message w sid data) !! lid = Some l' ->
     Lock._inner l' = [] \/
     exists l, Gateway.locks w !! lid = Some l /\ Lock._inner l' = Lock._inner l) /\
  Gateway.aborted (Gateway.on_message w sid data) = true /\
  option_map Gateway.sock_close (Gateway.clients (Gateway.on_message w sid data) !! sid)
    = Some (Some (Close.GoingAway, {| Close.cr_error := "server closing";
                                      Close.cr_code := Close.ShuttingDown |})).
Proof.
  intros Hs Hu Hr Ho Hlen.
  assert (Hready : Gateway.isReady w sid = true)
    by (unfold Gateway.isReady; rewrite Hs; exact Hr).
  unfold Gateway.on_message, Gateway.clientSocketMessageHandler.
  rewrite (FaultFacts.getUserId_of w sid s u Hs Hu), Hready. simpl negb.
  cbv iota.
  destruct (Gateway.getOrInitQueue w u) as [w1 lid] eqn:Eg.
  destruct (FaultFacts.getOrInitQueue_facts w u w1 lid Eg) as [Hc Hl].
  rewrite (FaultFacts.newQueueEntry_short data Hlen).
  assert (Hs1 : Gateway.clients w1 !! sid = Some s) by (rewrite Hc; exact Hs).
  destruct (FaultFacts.shutdown_closes w1 sid s Hs1 Ho) as [Ha Hcl].
  split; [reflexivity|]. split; [exact Hl|]. split; [exact Ha|exact Hcl].
Qed.

Lemma invalid_frame_shuts_server_down_witness :
  (Gateway.clients Scenarios.c3_world !! 0%nat = Some (Scenarios.ready_socket "1") /\
   Gateway.sock_user (Scenarios.ready_socket "1") = Some "1" /\
   Gateway.sock_ready (Scenarios.ready_socket "1") = true /\
   Gateway.sock_state (Scenarios.ready_socket "1") = Gateway.OPEN /\
   (length [0; 0; 0; 1] <= 4)%nat) /\
  option_map Gateway.sock_close
    (Gateway.clients (Gateway.on_message Scenarios.c3_world 0 [0; 0; 0; 1]) !! 0%nat)
    = Some (Some (Close.GoingAway, {| Close.cr_error := "server closing";
                                      Close.cr_code := Close.ShuttingDown |})).
Proof.
  split; [repeat split; simpl; lia|].
  apply (invalid_frame_shuts_server_down Scenarios.c3_world 0
           (Scenarios.ready_socket "1") "1" [0; 0; 0; 1]);
    [reflexivity | reflexivity | reflexivity | reflexivity | simpl; lia].
Defined.

(* ------------------------------------------------------------------ *)
(** ** Authentication *)

Module AuthFacts.
Import Auth.

Lemma prefix_app_iff (p a : string) :
  String.prefix p a = true <-> exists s, a = (p ++ s)%string.
Proof.
  revert a; induction p as [|c p IH]; intros a.
  - destruct a; simpl; split; auto; intros _; eexists; reflexivity.
  - destruct a as [|d a]; simpl.
    + split; [discriminate | intros [s Hs]; discriminate].
    + destruct (Ascii.ascii_dec c d) as [->|Hne].
      * rewrite IH. idtac. split; intros [s Hs]; exists s. { subst; reflexivity. }
        injection Hs; auto.
      * split; [discriminate | intros [s Hs]; injection Hs; congruence].
Qed.

Lemma split_space_head (s : string) :
  exists w ws rest, split_space s = w :: ws /\ s = (w ++ rest)%string /\
    (rest = EmptyString \/ exists r, rest = String space r).
Proof.
  induction s as [|c s IH]; simpl.
  - exists "", [], "". auto.
  - destruct (Ascii.eqb c space) eqn:E.
    + apply Ascii.eqb_eq in E. subst. exists "", (split_space s), (String space s).
      eauto.
    + destruct IH as (w & ws & rest & -> & -> & Hr).
      exists (String c w), ws, rest. auto.
Qed.

Lemma AUTH_TOKEN_lookup (t : string) (u : UserId) :
  AUTH_TOKEN !! t = Some u <-> (t = "a" /\ u = "1") \/ (t = "b" /\ u = "2").
Proof.
  unfold AUTH_TOKEN. rewrite lookup_insert_Some, lookup_singleton_Some. naive_solver.
Qed.

Lemma token_of_bearer (s : string) :
  getTokenFromAuthorization (Some ("Bearer " ++ s)%string)
  = Some (default "" (split_space s !! 0%nat)).
Proof. destruct s; reflexivity. Qed.

Lemma token_cases (a : string) :
  getTokenFromAuthorization (Some a) = None \/
  exists s, a = ("Bearer " ++ s)%string /\
    getTokenFromAuthorization (Some a) = Some (default "" (split_space s !! 0%nat)).
Proof.
  destruct (String.prefix "Bearer " a) eqn:E.
  - apply prefix_app_iff in E as [s ->]. right. exists s. split; [reflexivity|].
    apply token_of_bearer.
  - left. unfold getTokenFromAuthorization. rewrite E, orb_true_r. reflexivity.
Qed.

Lemma authMiddleware_authenticateClient (a : option string) :
  authMiddleware a
  = match authenticateClient a with Some u => MwNext u | None => MwUnauthorized end.
Proof.
  unfold authMiddleware, authenticateClient.
  destruct (getTokenFromAuthorization a) as [t|]; [|reflexivity].
  destruct (String.eqb t ""); [reflexivity|].
  destruct (getUserIdFromToken t) as [u|]; [|reflexivity].
  destruct (String.eqb u ""); reflexivity.
Qed.

(** X1: [authenticateClient] accepts an Authorization header exactly when it
    is "Bearer " followed by a token of [AUTH_TOKEN], itself followed by
    nothing or by a space; it then returns that token's user. [authMiddleware]
    calls [next] with the same user in the same cases, and both reject a
    request without the header. *)
Theorem authenticateClient_bearer (a : string) (u : UserId) :
  (authenticateClient (Some a) = Some u <->
   exists t rest, a = ("Bearer " ++ t ++ rest)%string /\
     (rest = EmptyString \/ exists r, rest = String space r) /\
     AUTH_TOKEN !! t = Some u) /\
  (authMiddleware (Some a) = MwNext u <-> authenticateClient (Some a) = Some u) /\
  authenticateClient None = None /\ authMiddleware None = MwUnauthorized.
Proof.
  split; [|split; [|split; reflexivity]].
  - split.
    + intros H. unfold authenticateClient in H.
      destruct (token_cases a) as [Hn | (s & -> & Ht)]; [rewrite Hn in H; discriminate|].
      rewrite Ht in H.
      destruct (split_space_head s) as (w & ws & rest & Hs & -> & Hr).
      rewrite Hs in H. simpl in H.
      destruct (String.eqb w ""); [discriminate|].
      unfold getUserIdFromToken in H.
      destruct (AUTH_TOKEN !! w) as [u'|] eqn:El; [|discriminate].
      destruct (String.eqb u' ""); [discriminate|].
      injection H as <-. exists w, rest. auto.
    + intros (t & rest & -> & Hr & Hl).
      apply AUTH_TOKEN_lookup in Hl as [[-> ->]|[-> ->]];
        destruct Hr as [->|[r ->]]; reflexivity.
  - rewrite authMiddleware_authenticateClient.
    destruct (authenticateClient (Some a)); split; congruence.
Qed.
End AuthFacts.

Module CounterFacts.
Import Frame Counter.

Lemma wrap_all_cons (c : BufferCounter) (b : Buffer) (bs : list Buffer) :
  wrap_all c (b :: bs)
  = (fst (wrap_all (fst (wrap c b)) bs), snd (wrap c b) :: snd (wrap_all (fst (wrap c b)) bs)).
Proof. simpl. destruct (wrap_all _ bs); reflexivity. Qed.

(** X2: successive [wrap] calls on a [BufferCounter] started at [n >= 0]
    number the frames [n+1], [n+2], ... while the ids stay within 32 bits:
    reading the id back from the [i]-th wrapped frame gives [n + 1 + i] and the
    original payload, and the counter ends at [n] plus the number of calls. *)
Theorem wrap_all_frames (n : Z) (ps : list Buffer) :
  0 <= n -> n + Z.of_nat (length ps) <= 4294967295 ->
  _lastId (fst (wrap_all (newBufferCounter n) ps)) = n + Z.of_nat (length ps) /\
  forall i p, ps !! i = Some p ->
    exists f, snd (wrap_all (newBufferCounter n) ps) !! i = Some (inr f) /\
      getIdFromBuffer f = inr (n + 1 + Z.of_nat i, p).
Proof.
  revert n. induction ps as [|b ps IH]; intros n Hn Hmax.
  - split; [simpl; lia|]. intros i p H. rewrite lookup_nil in H. discriminate.
  - rewrite wrap_all_cons. simpl length in Hmax.
    change (fst (wrap (newBufferCounter n) b)) with (newBufferCounter (n + 1)).
    destruct (IH (n + 1)) as [Hlast Hall]; [lia | lia |].
    split; [simpl; rewrite Hlast; lia|].
    intros [|i] p Hp; simpl in Hp |- *.
    + injection Hp as <-.
      destruct (FrameFacts.read_write_UInt32BE (n + 1) b) as (idb & Hw & Hl & Hr);
        [lia|].
      unfold insertIdIntoBuffer. rewrite Hw. eexists. split; [reflexivity|].
      unfold getIdFromBuffer. rewrite Hr. f_equal. f_equal; [lia|].
      apply drop_app_length'. symmetry. exact Hl.
    + destruct (Hall i p Hp) as (f & Hf & Hg). exists f. split; [exact Hf|]. rewrite Hg. do 2 f_equal. lia.
Qed.


End CounterFacts.

Module SearchFacts.
Import Queues QueueSearch.
Section S.
Context {T : Type}.

Lemma take_insert_last (l : list (option T)) (i : nat) (x : option T) :
  (i < length l)%nat -> take (S i) (<[i := x]> l) = take i l ++ [x].
Proof.
  intros H. rewrite (take_S_r _ _ x) by (apply list_lookup_insert_eq; exact H).
  rewrite take_insert_ge by lia. reflexivity.
Qed.

Lemma pq_exec_enqueues (l : list T) (q : @PQueue T) :
  (_writeSize (buffer q) + length l <= length (_writeBuffer (buffer q)))%nat ->
  exists q', pq_exec q (map Enqueue l) = inr q' /\
    _readBuffer (buffer q') = _readBuffer (buffer q) /\
    _readSize (buffer q') = _readSize (buffer q) /\
    readIndex q' = readIndex q /\
    _writeSize (buffer q') = (_writeSize (buffer q) + length l)%nat /\
    take (_writeSize (buffer q')) (_writeBuffer (buffer q'))
      = take (_writeSize (buffer q)) (_writeBuffer (buffer q)) ++ map Some l /\
    (hasWritten q' = true \/ (l = [] /\ hasWritten q' = hasWritten q)).
Proof.
  revert q. induction l as [|x l IH]; intros q Hle.
  - exists q. rewrite app_nil_r, Nat.add_0_r. simpl. auto 10.
  - simpl in Hle |- *. unfold pp_write.
    destruct (length (_writeBuffer (buffer q)) <=? _writeSize (buffer q))%nat eqn:E;
      [apply Nat.leb_le in E; lia|].
    destruct (IH {| buffer := {| _writeBuffer := <[_writeSize (buffer q) := Some x]>
                                    (_writeBuffer (buffer q));
                                 _readBuffer := _readBuffer (buffer q);
                                 _writeSize := S (_writeSize (buffer q));
                                 _readSize := _readSize (buffer q) |};
                    readIndex := readIndex q; hasWritten := true |})
      as (q' & Hex & Hrb & Hrs & Hri & Hws & Htk & Hhw);
      [simpl; rewrite length_insert; lia|].
    exists q'. rewrite Hex. simpl in *.
    split; [reflexivity|]. split; [exact Hrb|]. split; [exact Hrs|].
    split; [exact Hri|]. split; [lia|]. split.
    + rewrite Htk, take_insert_last by lia. rewrite <- app_assoc. reflexivity.
    + left. destruct Hhw as [Hhw|[_ Hhw]]; exact Hhw.
Qed.

Lemma js_filter_map_Some (p : T -> bool) (l : list T) :
  js_filter p (map Some l) = List.filter p l.
Proof. induction l as [|x l IH]; simpl; [reflexivity|]. rewrite IH. reflexivity. Qed.

Lemma aq_exec_enqueues (items l : list T) :
  aq_exec items (map Enqueue l) = items ++ l.
Proof.
  revert items. induction l as [|x l IH]; intros items; simpl.
  - rewrite app_nil_r. reflexivity.
  - rewrite IH, <- app_assoc. reflexivity.
Qed.

(** X4: after up to 1024 enqueues on a new PingPong [Queue], [filter] returns
    nothing and [findIndex] returns -1 whatever the predicate, since they only
    look at the read buffer; the array [Queue] filters the enqueued items. *)
Theorem queue_search_misses_pending (xs : list T) (p : T -> bool) (p' : option T -> bool) :
  (length xs <= 1024)%nat ->
  exists q, pq_exec pq_new (map Enqueue xs) = inr q /\
    pq_filter q p = [] /\ pq_findIndex q p' = (-1)%Z /\
    aq_filter (aq_exec [] (map Enqueue xs)) p = List.filter p xs.
Proof.
  intros Hle.
  destruct (pq_exec_enqueues xs pq_new) as (q & Hex & _ & Hrs & _); [unfold pq_new, newPingPongBuffer; cbn [buffer _writeBuffer _writeSize]; rewrite length_replicate; simpl length; lia|].
  exists q. split; [exact Hex|].
  unfold pq_filter, pq_findIndex, pp_toArray. rewrite Hrs. simpl.
  split; [reflexivity|]. split; [reflexivity|].
  rewrite aq_exec_enqueues. reflexivity.
Qed.

(** X5: after enqueuing [x :: xs] (fewer than 1025 items) on a new PingPong
    [Queue] and one [dequeue], [filter] still sees [x], the item just
    dequeued; the array [Queue] only sees [xs]. *)
Theorem queue_search_sees_dequeued (x : T) (xs : list T) (p : T -> bool) :
  (length xs < 1024)%nat ->
  exists q, pq_exec pq_new (map Enqueue (x :: xs) ++ [Dequeue]) = inr q /\
    pq_filter q p = List.filter p (x :: xs) /\
    aq_filter (aq_exec [] (map Enqueue (x :: xs) ++ [Dequeue])) p = List.filter p xs.
Proof.
  intros Hle.
  destruct (pq_exec_enqueues (x :: xs) pq_new)
    as (q & Hex & Hrb & Hrs & Hri & Hws & Htk & Hhw);
    [unfold pq_new, newPingPongBuffer; cbn [buffer _writeBuffer _writeSize]; rewrite length_replicate; simpl length; lia|].
  assert (Happ : forall (q0 : @PQueue T) ops1 ops2,
            pq_exec q0 (ops1 ++ ops2)
            = match pq_exec q0 ops1 with inl e => inl e | inr q1 => pq_exec q1 ops2 end).
  { intros q0 ops1. revert q0. induction ops1 as [|op ops1 IH]; intros q0 ops2; simpl;
      [reflexivity|]. destruct (pq_op q0 op) as [e|[q1 r]]; [reflexivity|]. apply IH. }
  rewrite Happ, Hex. simpl in Hrs, Hri, Hws, Htk.
  destruct Hhw as [Hhw|[Hc _]]; [|discriminate].
  simpl. unfold pq_flush. rewrite Hhw, Hri, Hrs. simpl.
  rewrite Hws. simpl. eexists. split; [reflexivity|]. split.
  - unfold pq_filter, pp_toArray. simpl. rewrite Htk.
    exact (js_filter_map_Some p (x :: xs)).
  - assert (Haq : forall (items : list T) ops1 ops2, aq_exec items (ops1 ++ ops2)
                  = aq_exec (aq_exec items ops1) ops2).
    { intros items ops1. revert items. induction ops1; intros; simpl; auto. }
    rewrite Haq, aq_exec_enqueues. reflexivity.
Qed.

End S.
End SearchFacts.

Module AbortFacts.
Import Abort.

Lemma foldl_run_aborted (st : AState) (L : list Fn) :
  a_aborted (foldl run_listener st L) = a_aborted st.
Proof. revert st. induction L as [|f L IH]; intros st; [reflexivity|].
  simpl. rewrite IH. destruct f; reflexivity. Qed.

Lemma foldl_run_calls (st : AState) (L : list Fn) :
  a_calls (foldl run_listener st L)
  = a_calls st ++ omap (fun f => match f with FCallback c => Some c | FHandler _ => None end) L.
Proof.
  revert st. induction L as [|f L IH]; intros st; simpl.
  - rewrite app_nil_r. reflexivity.
  - rewrite IH. destruct f; simpl; [reflexivity|]. rewrite <- app_assoc. reflexivity.
Qed.

Lemma settle_lookup (ps : gmap nat PState) (q pid : nat) (v : PState) :
  settle ps q v !! pid
  = if decide (q = pid) then match ps !! pid with Some Pending => Some v | o => o end
    else ps !! pid.
Proof.
  unfold settle. destruct (decide (q = pid)) as [->|Hne].
  - destruct (ps !! pid) as [[]|] eqn:E; rewrite ?lookup_insert_eq, ?E; reflexivity.
  - destruct (ps !! q) as [[]|]; rewrite ?lookup_insert_ne by exact Hne; reflexivity.
Qed.

Lemma foldl_run_promise (st : AState) (L : list Fn) (pid : nat) :
  a_promises (foldl run_listener st L) !! pid
  = if decide (FHandler pid ∈ L)
    then match a_promises st !! pid with Some Pending => Some (Rejected "aborted") | o => o end
    else a_promises st !! pid.
Proof.
  revert st. induction L as [|f L IH]; intros st; cbn [foldl].
  - rewrite decide_False by (intros H; inversion H). reflexivity.
  - rewrite IH.
    destruct (decide (FHandler pid ∈ L)) as [Hin|Hnin];
      destruct (decide (FHandler pid ∈ f :: L)) as [Hc|Hc]; rewrite elem_of_cons in Hc;
      try tauto; destruct f as [q|c]; cbn [run_listener a_promises mkA];
      rewrite ?settle_lookup; try reflexivity.
    + destruct (decide (q = pid)) as [->|]; [|reflexivity].
      destruct (a_promises st !! pid) as [[]|]; reflexivity.
    + destruct Hc as [Hc|Hc]; [|contradiction]. injection Hc as ->.
      rewrite decide_True by reflexivity. reflexivity.
    + destruct Hc as [Hc|Hc]; [discriminate|contradiction].
    + rewrite decide_False; [reflexivity|]. intros ->. apply Hc. left. reflexivity.
Qed.

Lemma count_callbacks (L : list Fn) (cid : nat) :
  NoDup L ->
  length (filter (fun c => c = cid)
            (omap (fun f => match f with FCallback c => Some c | FHandler _ => None end) L))
  = if decide (FCallback cid ∈ L) then 1%nat else 0%nat.
Proof.
  set (g := fun f => match f with FCallback c => Some c | FHandler _ => None end).
  assert (Hom : forall f L, omap g (f :: L)
                  = match g f with Some c => c :: omap g L | None => omap g L end)
    by reflexivity.
  induction L as [|f L IH]; intros Hnd.
  - reflexivity.
  - apply NoDup_cons in Hnd as [Hf Hnd]. specialize (IH Hnd). rewrite Hom.
    destruct (decide (FCallback cid ∈ f :: L)) as [Hc|Hc]; rewrite elem_of_cons in Hc;
      destruct (decide (FCallback cid ∈ L)) as [Hin|Hnin]; try tauto;
      destruct f as [q|c]; simpl g; cbv iota; try (rewrite filter_cons);
      try (destruct (decide (c = cid)) as [->|Hne]); simpl length; rewrite ?IH;
      try reflexivity.
    + contradiction.
    + destruct Hc as [Hc|Hc]; [discriminate|contradiction].
    + destruct Hc as [Hc|Hc]; [congruence|contradiction].
    + exfalso. apply Hc. left. reflexivity.
Qed.

Lemma abort_calls (st : AState) :
  a_aborted st = false ->
  a_calls (abort st)
  = a_calls st ++ omap (fun f => match f with FCallback c => Some c | FHandler _ => None end)
                   (a_listeners st).
Proof. intros H. unfold abort. rewrite H, foldl_run_calls. reflexivity. Qed.

Lemma abort_aborted (st : AState) : a_aborted (abort st) = true.
Proof.
  unfold abort. destruct (a_aborted st) eqn:E; [exact E|].
  rewrite foldl_run_aborted. reflexivity.
Qed.

Lemma abort_twice (st : AState) : abort (abort st) = abort st.
Proof. unfold abort at 1. rewrite abort_aborted. reflexivity. Qed.

Lemma abort_promise (st : AState) (pid : nat) :
  a_aborted st = false ->
  a_promises (abort st) !! pid
  = if decide (FHandler pid ∈ a_listeners st)
    then match a_promises st !! pid with Some Pending => Some (Rejected "aborted") | o => o end
    else a_promises st !! pid.
Proof. intros H. unfold abort. rewrite H, foldl_run_promise. reflexivity. Qed.

(** X6: on a signal not yet aborted (listeners without duplicates), the
    callback registered by [onAbort] is not called at registration, is called
    exactly once by [abort], not again by a second [abort], and not at all
    when the returned cleanup ran before the abort. *)
Theorem onAbort_fires_once (st st1 : AState) (cid : nat) (allow : bool) (c : option Fn) :
  a_aborted st = false -> NoDup (a_listeners st) ->
  onAbort st cid allow = inr (st1, c) ->
  count_calls cid st1 = count_calls cid st /\
  count_calls cid (abort st1) = S (count_calls cid st) /\
  count_calls cid (abort (abort st1)) = S (count_calls cid st) /\
  count_calls cid (abort (cleanup st1 c)) = count_calls cid st.
Proof.
  intros Hab Hnd. unfold onAbort. rewrite Hab. intros [= <- <-].
  assert (Hadd : a_aborted (addEventListener st (FCallback cid)) = false /\
                 a_calls (addEventListener st (FCallback cid)) = a_calls st /\
                 NoDup (a_listeners (addEventListener st (FCallback cid))) /\
                 FCallback cid ∈ a_listeners (addEventListener st (FCallback cid))).
  { unfold addEventListener. destruct (decide _) as [Hin|Hnin]; simpl.
    - auto.
    - split; [exact Hab|]. split; [reflexivity|]. split.
      + apply NoDup_app. split; [exact Hnd|]. split; [|apply NoDup_singleton].
        intros x Hx Hx'. apply list_elem_of_singleton in Hx'. subst. contradiction.
      + apply elem_of_app. right. apply list_elem_of_singleton. reflexivity. }
  destruct Hadd as (Ha1 & Hc1 & Hnd1 & Hin1).
  unfold count_calls. split; [rewrite Hc1; reflexivity|].
  assert (Hone : length (filter (fun x => x = cid) (a_calls (abort (addEventListener st (FCallback cid)))))
                 = S (length (filter (fun x => x = cid) (a_calls st)))).
  { rewrite abort_calls by exact Ha1. rewrite filter_app, length_app, Hc1.
    rewrite count_callbacks by exact Hnd1. rewrite decide_True by exact Hin1. lia. }
  split; [exact Hone|]. split; [rewrite abort_twice; exact Hone|].
  simpl. unfold removeEventListener. rewrite abort_calls by exact Ha1. simpl.
  rewrite filter_app, length_app, Hc1.
  rewrite count_callbacks by (apply NoDup_filter; exact Hnd1).
  rewrite decide_False; [lia|].
  rewrite list_elem_of_filter. intros [H _]. apply H. reflexivity.
Qed.

(** X7: on a signal not yet aborted, the promise of [rejectOnAbort] is pending;
    [abort] rejects it with "aborted"; after [cancel], [abort] leaves it
    resolved when [resolveOnCancel] is set and pending otherwise. *)
Theorem rejectOnAbort_promise (st st1 : AState) (allow resolveOnCancel : bool) (h : Handle) :
  a_aborted st = false ->
  rejectOnAbort st allow resolveOnCancel = inr (st1, h) ->
  a_promises st1 !! h_promise h = Some Pending /\
  a_promises (abort st1) !! h_promise h = Some (Rejected "aborted") /\
  a_promises (abort (cancel st1 h)) !! h_promise h
    = Some (if resolveOnCancel then Resolved else Pending).
Proof.
  intros Hab. unfold rejectOnAbort. rewrite Hab. intros [= <- <-]. cbn [h_promise h_cancel].
  set (st0 := mkA false (a_listeners st) (<[a_next st := Pending]> (a_promises st))
                  (a_calls st) (S (a_next st))).
  assert (Hadd : a_aborted (addEventListener st0 (FHandler (a_next st))) = false /\
                 a_promises (addEventListener st0 (FHandler (a_next st))) = a_promises st0 /\
                 FHandler (a_next st) ∈ a_listeners (addEventListener st0 (FHandler (a_next st)))).
  { unfold addEventListener. destruct (decide _) as [Hin|Hnin]; simpl.
    - auto.
    - split; [reflexivity|]. split; [reflexivity|].
      apply elem_of_app. right. apply list_elem_of_singleton. reflexivity. }
  destruct Hadd as (Ha1 & Hp1 & Hin1).
  assert (Hpend : a_promises st0 !! a_next st = Some Pending)
    by (simpl; apply lookup_insert_eq).
  split; [rewrite Hp1; exact Hpend|]. split.
  - rewrite abort_promise by exact Ha1. rewrite decide_True by exact Hin1.
    rewrite Hp1, Hpend. reflexivity.
  - unfold cancel. simpl.
    destruct resolveOnCancel; unfold removeEventListener; simpl;
      rewrite abort_promise by exact Ha1; simpl;
      (rewrite decide_False; [|rewrite list_elem_of_filter; intros [H _]; apply H; reflexivity]).
    + rewrite settle_lookup, decide_True by reflexivity. rewrite Hp1, Hpend.
      reflexivity.
    + rewrite Hp1. exact Hpend.
Qed.

End AbortFacts.

Module ConnectionFacts.
Import Close Frame Gateway.

Lemma qm_lookup_assign_eq (qm : list (UserId * nat)) (u : UserId) (v : nat) :
  qm_lookup (qm_assign qm u v) u = Some v.
Proof.
  induction qm as [|[k x] qm IH]; simpl.
  - rewrite String.eqb_refl. reflexivity.
  - destruct (String.eqb_spec k u) as [->|Hne]; simpl.
    + rewrite String.eqb_refl. reflexivity.
    + destruct (String.eqb_spec k u); [contradiction|exact IH].
Qed.

Lemma update_socket_same (w : World) (sid : nat) (s : Socket) (f : Socket -> Socket) :
  clients w !! sid = Some s -> clients (update_socket w sid f) !! sid = Some (f s).
Proof. intros H. unfold update_socket. rewrite H. simpl. apply lookup_insert_eq. Qed.

Lemma registerSocketForUserId_spec (w : World) (sid : nat) (s : Socket) (u : UserId) :
  clients w !! sid = Some s -> sock_user s = Some u ->
  exists w', registerSocketForUserId w sid = inr w' /\
    socket_map w' = <[u := sid]> (socket_map w) /\
    (forall k, socket_map w !! u <> Some k -> clients w' !! k = clients w !! k) /\
    (forall old so, socket_map w !! u = Some old -> clients w !! old = Some so ->
       clients w' !! old
       = Some (close_sock PolicyViolation
                 {| cr_error := "Connection replaced"; cr_code := ConnectionReplacedError |} so)).
Proof.
  intros Hs Hu. unfold registerSocketForUserId.
  rewrite (FaultFacts.getUserId_of w sid s u Hs Hu).
  destruct (socket_map w !! u) as [old|] eqn:Eo; eexists; (split; [reflexivity|]); simpl.
  - unfold closeWithError. split.
    + unfold update_socket. destruct (clients w !! old); reflexivity.
    + split.
      * intros k Hk. apply FaultFacts.update_socket_other. congruence.
      * intros old' so [= <-] Hso. apply update_socket_same. exact Hso.
  - split; [reflexivity|]. split; [reflexivity|]. intros old so H. discriminate.
Qed.

(** X8: registering a socket of user [u] maps [u] to that socket, closes the
    socket previously registered for [u] with PolicyViolation and
    ConnectionReplacedError, and leaves every other socket as it was. *)
Theorem registerSocketForUserId_replaces (w : World) (sid : nat) (s : Socket) (u : UserId) :
  clients w !! sid = Some s -> sock_user s = Some u ->
  exists w', registerSocketForUserId w sid = inr w' /\
    socket_map w' = <[u := sid]> (socket_map w) /\
    (forall k, socket_map w !! u <> Some k -> clients w' !! k = clients w !! k) /\
    (forall old so, socket_map w !! u = Some old -> clients w !! old = Some so ->
       clients w' !! old
       = Some (close_sock PolicyViolation
                 {| cr_error := "Connection replaced"; cr_code := ConnectionReplacedError |} so)).
Proof. apply registerSocketForUserId_spec. Qed.

(** X9: a connection that did not authenticate is closed with
    PolicyViolation and Unauthorized; the registry, the queue map and the
    abort signal are unchanged. *)
Theorem handleConnection_unauthenticated (w : World) (sid : nat) (s : Socket)
    (call : StoreCall) :
  clients w !! sid = Some s ->
  clients (handleConnection w sid None call) !! sid
    = Some (close_sock PolicyViolation {| cr_error := "Unauthorized"; cr_code := Unauthorized |}
              (with_user None s)) /\
  socket_map (handleConnection w sid None call) = socket_map w /\
  queue_map (handleConnection w sid None call) = queue_map w /\
  aborted (handleConnection w sid None call) = aborted w.
Proof.
  intros Hs. unfold handleConnection, closeWithError. cbv beta iota zeta.
  assert (H0 : clients (update_socket w sid (with_user None)) !! sid = Some (with_user None s))
    by (apply update_socket_same; exact Hs).
  rewrite (update_socket_same _ _ _ _ H0).
  split; [reflexivity|]. unfold update_socket. rewrite Hs. cbn [set_clients clients]. rewrite lookup_insert_eq. simpl. auto.
Qed.

(** X10: a connection authenticated as [u] on an open socket (not already the
    registered socket of [u]) is registered for [u]; if [u]'s remaining usage
    (read from a store call that resolves) is positive the socket becomes
    ready and is sent the ready event,
    otherwise it is closed with PolicyViolation and
    ExceededAllocatedUsageError. *)
Theorem handleConnection_admission (w : World) (sid : nat) (s : Socket) (u : UserId) :
  clients w !! sid = Some s -> sock_state s = OPEN -> socket_map w !! u <> Some sid ->
  socket_map (handleConnection w sid (Some u) StoreResolves) !! u = Some sid /\
  aborted (handleConnection w sid (Some u) StoreResolves) = aborted w /\
  clients (handleConnection w sid (Some u) StoreResolves) !! sid
  = Some (if Usage.remainingMs (Usage.getUsage (usage w) u) <=? 0
          then close_sock PolicyViolation
                 {| cr_error := "Exceeded allocated usage";
                    cr_code := ExceededAllocatedUsageError |} (with_user (Some u) s)
          else with_sent ready_msg (with_ready true (with_user (Some u) s))).
Proof.
  intros Hs Hopen Hne. unfold handleConnection.
  set (w0 := update_socket w sid (with_user (Some u))).
  assert (H0 : clients w0 !! sid = Some (with_user (Some u) s))
    by (apply update_socket_same; exact Hs).
  destruct (registerSocketForUserId_spec w0 sid _ u H0 eq_refl)
    as (w1 & Hreg & Hsm & Hother & _).
  rewrite Hreg.
  assert (Hsm0 : socket_map w0 = socket_map w)
    by (unfold w0, update_socket; rewrite Hs; reflexivity).
  assert (Hab0 : aborted w0 = aborted w)
    by (unfold w0, update_socket; rewrite Hs; reflexivity).
  assert (Hus0 : usage w0 = usage w)
    by (unfold w0, update_socket; rewrite Hs; reflexivity).
  assert (H1 : clients w1 !! sid = Some (with_user (Some u) s))
    by (rewrite Hother; [exact H0 | rewrite Hsm0; exact Hne]).
  assert (Hab1 : aborted w1 = aborted w0 /\ usage w1 = usage w0).
  { unfold registerSocketForUserId in Hreg.
    rewrite (FaultFacts.getUserId_of w0 sid _ u H0 eq_refl) in Hreg.
    injection Hreg as <-. destruct (socket_map w0 !! u) as [old|]; [|split; reflexivity].
    unfold closeWithError, update_socket. destruct (clients w0 !! old); split; reflexivity. }
  destruct Hab1 as [Hab1 Hus1].
  unfold validateUsageRemaining.
  rewrite (FaultFacts.getUserId_of w1 sid _ u H1 eq_refl). rewrite Hus1, Hus0.
  destruct (Usage.remainingMs (Usage.getUsage (usage w) u) <=? 0).
  - unfold closeWithError, update_socket. rewrite H1. simpl.
    rewrite lookup_insert_eq, Hsm, Hsm0, lookup_insert_eq, Hab1, Hab0. auto.
  - unfold sendData, isOpen, update_socket. rewrite H1. simpl.
    rewrite lookup_insert_eq. simpl. rewrite bool_decide_true by exact Hopen. simpl.
    rewrite lookup_insert_eq, Hsm, Hsm0, lookup_insert_eq. rewrite Hab1, Hab0.
    split; [reflexivity|]. split; [reflexivity|]. reflexivity.
Qed.

End ConnectionFacts.

Module MessageFacts.
Import Close Frame Gateway.

(** X11: a frame on an authenticated socket that is not ready yet closes it with
    PolicyViolation and NotReady, and enqueues nothing. *)
Theorem message_before_ready (w : World) (sid : nat) (s : Socket) (u : UserId) (data : Buffer) :
  clients w !! sid = Some s -> sock_user s = Some u -> sock_ready s = false ->
  exists w', clientSocketMessageHandler w sid data = (None, w') /\
    queue_map w' = queue_map w /\ locks w' = locks w /\
    clients w' !! sid
    = Some (close_sock PolicyViolation {| cr_error := "not ready"; cr_code := NotReady |} s).
Proof.
  intros Hs Hu Hr. unfold clientSocketMessageHandler.
  rewrite (FaultFacts.getUserId_of w sid s u Hs Hu).
  unfold isReady. rewrite Hs, Hr. simpl. eexists. split; [reflexivity|].
  unfold closeWithError. rewrite (ConnectionFacts.update_socket_same _ _ _ _ Hs).
  unfold update_socket. rewrite Hs. auto.
Qed.

(** X12: a valid frame on a ready socket of [u] is appended to the end of [u]'s
    queue, which is created when [u] had none; no socket is touched. *)
Theorem message_enqueued (w : World) (sid : nat) (s : Socket) (u : UserId)
    (data : Buffer) (e : QueueEntry) :
  clients w !! sid = Some s -> sock_user s = Some u -> sock_ready s = true ->
  newQueueEntry data = inr e ->
  (forall lid, qm_lookup (queue_map w) u = Some lid -> is_Some (locks w !! lid)) ->
  exists w' lid l, clientSocketMessageHandler w sid data = (None, w') /\
    clients w' = clients w /\
    qm_lookup (queue_map w') u = Some lid /\ locks w' !! lid = Some l /\
    Lock._inner l = match qm_lookup (queue_map w) u with
                    | Some lid0 => default [] (Lock._inner <$> locks w !! lid0)
                    | None => []
                    end ++ [e].
Proof.
  intros Hs Hu Hr He Hinv. unfold clientSocketMessageHandler.
  rewrite (FaultFacts.getUserId_of w sid s u Hs Hu).
  unfold isReady. rewrite Hs, Hr. simpl.
  unfold getOrInitQueue. destruct (qm_lookup (queue_map w) u) as [lid0|] eqn:Eq.
  - destruct (Hinv lid0 eq_refl) as [l0 Hl0]. rewrite He.
    unfold enqueue. rewrite Hl0. simpl.
    eexists _, lid0, _. split; [reflexivity|]. simpl.
    split; [reflexivity|]. split; [exact Eq|]. split; [apply lookup_insert_eq|].
    reflexivity.
  - rewrite He. unfold enqueue. simpl. rewrite lookup_insert_eq. simpl.
    eexists _, (next_lock w), _. split; [reflexivity|]. simpl.
    split; [reflexivity|]. split; [apply ConnectionFacts.qm_lookup_assign_eq|].
    split; [apply lookup_insert_eq|]. reflexivity.
Qed.

End MessageFacts.

Module ProcessingFacts.
Import Close Frame Gateway Processing.

(** X13: when the transcription succeeds and the socket is open, the reply
    [{ id, ...result }] is sent on it, and the socket is then closed with
    PolicyViolation and ExceededAllocatedUsageError when the remaining usage
    is 0 or less; other sockets are untouched. *)
Theorem processTranscribe_reply (w : World) (sid : nat) (s : Socket) (e : QueueEntry)
    (r : Transcribe.TranscribeResponse) :
  clients w !! sid = Some s -> sock_state s = OPEN ->
  clients (processTranscribe_resume w sid e (inr r)) !! sid
  = Some (if Transcribe.usageRemainingMs r <=? 0
          then close_sock PolicyViolation
                 {| cr_error := "Exceeded allocated usage";
                    cr_code := ExceededAllocatedUsageError |} (with_sent (reply_obj e r) s)
          else with_sent (reply_obj e r) s) /\
  (forall k, k <> sid ->
     clients (processTranscribe_resume w sid e (inr r)) !! k = clients w !! k).
Proof.
  intros Hs Ho. unfold processTranscribe_resume.
  assert (Hopen : isOpen w sid = true)
    by (unfold isOpen; rewrite Hs; apply bool_decide_true; exact Ho).
  rewrite Hopen. simpl. unfold sendData. rewrite Hopen.
  assert (H1 : clients (update_socket w sid (with_sent (reply_obj e r))) !! sid
               = Some (with_sent (reply_obj e r) s))
    by (apply ConnectionFacts.update_socket_same; exact Hs).
  destruct (Transcribe.usageRemainingMs r <=? 0); simpl.
  - unfold closeWithError. split.
    + apply ConnectionFacts.update_socket_same. exact H1.
    + intros k Hk. rewrite !FaultFacts.update_socket_other by exact Hk. reflexivity.
  - split; [exact H1|]. intros k Hk. apply FaultFacts.update_socket_other. exact Hk.
Qed.

(** X14: when the transcription fails, nothing happens if the socket is no
    longer open; on an open socket no reply is sent, and the socket stays open
    exactly when the error is a ConnectionClosedError. *)
Theorem processTranscribe_failure (w : World) (sid : nat) (e : QueueEntry) (err : ErrObj) :
  (isOpen w sid = false -> processTranscribe_resume w sid e (inl err) = w) /\
  (forall s, clients w !! sid = Some s -> sock_state s = OPEN ->
     option_map sock_sent (clients (processTranscribe_resume w sid e (inl err)) !! sid)
       = Some (sock_sent s) /\
     (option_map sock_state (clients (processTranscribe_resume w sid e (inl err)) !! sid)
        = Some OPEN <-> exists m, err = EConnClosed m)).
Proof.
  split.
  - intros Hc. unfold processTranscribe_resume. rewrite Hc. reflexivity.
  - intros s Hs Ho. unfold processTranscribe_resume.
    assert (Hopen : isOpen w sid = true)
      by (unfold isOpen; rewrite Hs; apply bool_decide_true; exact Ho).
    rewrite Hopen. simpl.
    destruct err as [m|m|m|m|m|m|m]; simpl;
      try (unfold closeWithError; rewrite (ConnectionFacts.update_socket_same _ _ _ _ Hs); simpl;
           unfold close_sock; rewrite decide_True by exact Ho; simpl;
           split; [reflexivity|]; split; [discriminate|intros [m' Hm]; discriminate]).
    rewrite Hs. simpl. split; [reflexivity|]. split; [eauto|]. intros _. rewrite Ho. reflexivity.
Qed.

End ProcessingFacts.

Module ProcessingUsageFacts.
Import Close Frame Gateway Processing.

Lemma set_usage_clients (w : World) (st : Usage.Store) : clients (set_usage w st) = clients w.
Proof. reflexivity. Qed.

Lemma update_socket_usage (w : World) (sid : nat) (f : Socket -> Socket) :
  usage (update_socket w sid f) = usage w.
Proof. unfold update_socket. destruct (clients w !! sid); reflexivity. Qed.

Lemma resume_usage (w : World) (sid : nat) (e : QueueEntry)
    (settled : ErrObj + Transcribe.TranscribeResponse) :
  usage (processTranscribe_resume w sid e settled) = usage w.
Proof.
  assert (Hh : forall err, usage (handleTranscribeError w sid err) = usage w)
    by (intros []; simpl; unfold closeWithError; rewrite ?update_socket_usage; reflexivity).
  unfold processTranscribe_resume.
  destruct settled as [err|r]; [destruct (isOpen w sid); simpl; auto|].
  destruct (isOpen w sid) eqn:Eo; simpl; [|auto].
  unfold sendData. rewrite Eo. destruct (_ <=? 0); unfold closeWithError;
    rewrite ?update_socket_usage; reflexivity.
Qed.

(** X15: when the estimated cost of an entry exceeds the user's remaining usage,
    [processTranscribe] closes the open socket with PolicyViolation and
    ExceededAllocatedUsageError and does not charge the user. *)
Theorem processTranscribe_unaffordable (w : World) (u : UserId) (e : QueueEntry)
    (o : Transcribe.Outcome) (sid : nat) (s : Socket) :
  socket_map w !! u = Some sid -> clients w !! sid = Some s -> sock_state s = OPEN ->
  Usage.remainingMs (Usage.getUsage (usage w) u)
    < Transcribe.estimateUsageMs (length (qe_data e)) ->
  exists w', processTranscribe w u e o = inr w' /\ usage w' = usage w /\
    clients w' !! sid
    = Some (close_sock PolicyViolation
              {| cr_error := "Exceeded allocated usage";
                 cr_code := ExceededAllocatedUsageError |} s).
Proof.
  intros Hsm Hs Ho Hlt. unfold processTranscribe, processTranscribe_start. rewrite Hsm.
  unfold Transcribe.transcribeForUser.
  set (rem := Usage.remainingMs (Usage.getUsage (usage w) u)) in *.
  assert (Hres : exists m, fst (Transcribe.transcribeForUser (usage w) u (length (qe_data e)) o)
                             = inl (Transcribe.ExceededAllocatedUsage m) /\
                  snd (Transcribe.transcribeForUser (usage w) u (length (qe_data e)) o) = usage w).
  { unfold Transcribe.transcribeForUser. fold rem.
    destruct (rem <=? 0); [eauto|].
    replace (rem <? Transcribe.estimateUsageMs (length (qe_data e))) with true
      by (symmetry; apply Z.ltb_lt; exact Hlt). eauto. }
  unfold Transcribe.transcribeForUser in Hres. fold rem in Hres.
  destruct (if rem <=? 0 then _ else _) as [res st'] eqn:Ez.
  simpl in Hres. destruct Hres as (m & -> & ->).
  eexists. split; [reflexivity|].
  unfold processTranscribe_resume. simpl.
  assert (Hopen : isOpen (set_usage w (usage w)) sid = true)
    by (unfold isOpen; rewrite set_usage_clients, Hs; apply bool_decide_true; exact Ho).
  rewrite Hopen. simpl. unfold closeWithError, update_socket.
  rewrite set_usage_clients, Hs. simpl. split; [reflexivity|]. apply lookup_insert_eq.
Qed.

(** X16: when the estimated cost of a non-empty entry is within the remaining
    usage, a finished transcription charges exactly that cost, sends the
    reply with the new remaining usage, and closes the socket with
    ExceededAllocatedUsageError when that usage reaches 0. *)
Theorem processTranscribe_affordable (w : World) (u : UserId) (e : QueueEntry)
    (text : string) (conf : Z) (sid : nat) (s : Socket) :
  socket_map w !! u = Some sid -> clients w !! sid = Some s -> sock_state s = OPEN ->
  (0 < length (qe_data e))%nat ->
  Transcribe.estimateUsageMs (length (qe_data e))
    <= Usage.remainingMs (Usage.getUsage (usage w) u) ->
  exists w', processTranscribe w u e (Transcribe.Finished text conf) = inr w' /\
    usage w' = Usage.updateUsage (usage w) u (Transcribe.estimateUsageMs (length (qe_data e))) /\
    Usage.remainingMs (Usage.getUsage (usage w') u)
      = Usage.remainingMs (Usage.getUsage (usage w) u)
        - Transcribe.estimateUsageMs (length (qe_data e)) /\
    clients w' !! sid
    = Some (let r := {| Transcribe.resp_transcript := text;
                        Transcribe.resp_usageUsedMs :=
                          Transcribe.estimateUsageMs (length (qe_data e));
                        Transcribe.resp_confidence := conf;
                        Transcribe.usageRemainingMs :=
                          Usage.remainingMs (Usage.getUsage (usage w) u)
                          - Transcribe.estimateUsageMs (length (qe_data e)) |} in
            if Usage.remainingMs (Usage.getUsage (usage w) u)
               =? Transcribe.estimateUsageMs (length (qe_data e))
            then close_sock PolicyViolation
                   {| cr_error := "Exceeded allocated usage";
                      cr_code := ExceededAllocatedUsageError |} (with_sent (reply_obj e r) s)
            else with_sent (reply_obj e r) s).
Proof.
  intros Hsm Hs Ho Hlen Hle.
  pose proof (TranscribeFacts.estimateUsageMs_pos _ Hlen) as Hpos.
  unfold processTranscribe, processTranscribe_start. rewrite Hsm.
  unfold Transcribe.transcribeForUser.
  set (rem := Usage.remainingMs (Usage.getUsage (usage w) u)) in *.
  set (est := Transcribe.estimateUsageMs (length (qe_data e))) in *.
  replace (rem <=? 0) with false by (symmetry; apply Z.leb_gt; lia).
  replace (rem <? est) with false by (symmetry; apply Z.ltb_ge; lia).
  simpl. eexists. split; [reflexivity|]. rewrite resume_usage. simpl.
  change (Transcribe.fakeProcessTime (Transcribe.fakeSpeechWordCount (length (qe_data e))))
    with est.
  split; [reflexivity|]. split.
  - unfold Usage.getUsage, Usage._getUsage, Usage.updateUsage.
    rewrite lookup_insert_eq. simpl. fold (Usage._getUsage (usage w) u).
    change (Usage.remainingMs (Usage._getUsage (usage w) u)) with rem. lia.
  - unfold processTranscribe_resume.
    assert (Hopen : isOpen (set_usage w (Usage.updateUsage (usage w) u est)) sid = true)
      by (unfold isOpen; rewrite set_usage_clients, Hs; apply bool_decide_true; exact Ho).
    rewrite Hopen. simpl. unfold sendData. rewrite Hopen.
    assert (H1 : clients (update_socket (set_usage w (Usage.updateUsage (usage w) u est)) sid
                          (with_sent (reply_obj e
                             {| Transcribe.resp_transcript := text;
                                Transcribe.resp_usageUsedMs := est;
                                Transcribe.resp_confidence := conf;
                                Transcribe.usageRemainingMs := rem - est |}))) !! sid
                 = Some (with_sent (reply_obj e
                             {| Transcribe.resp_transcript := text;
                                Transcribe.resp_usageUsedMs := est;
                                Transcribe.resp_confidence := conf;
                                Transcribe.usageRemainingMs := rem - est |}) s))
      by (apply ConnectionFacts.update_socket_same; rewrite set_usage_clients; exact Hs).
    simpl. destruct (rem =? est) eqn:Eq.
    + apply Z.eqb_eq in Eq. replace (rem - est <=? 0) with true by (symmetry; apply Z.leb_le; lia).
      unfold closeWithError. apply ConnectionFacts.update_socket_same. exact H1.
    + apply Z.eqb_neq in Eq. replace (rem - est <=? 0) with false by (symmetry; apply Z.leb_gt; lia).
      exact H1.
Qed.

End ProcessingUsageFacts.

Module ProcessQueueFacts.
Import Close Frame Gateway Dispatcher.

(** X17: when [processQueue] yields a task of user [u], the signal was not
    aborted, [u] is among the scanned keys, the entry was the head of [u]'s
    queue whose lock was free, the lock is now held and the entry removed, and
    [u] is registered on an open socket. *)
Theorem processQueue_next_yield (w : World) (ks : list UserId) (w' : World) (u : UserId)
    (lid : nat) (e : QueueEntry) (ks' : list UserId) :
  processQueue_next w ks = (w', Some (u, lid, e, ks')) ->
  aborted w = false /\ u ∈ ks /\
  (exists rest,
     locks w !! lid = Some {| Lock._locked := false; Lock._inner := e :: rest |} /\
     locks w' !! lid = Some {| Lock._locked := true; Lock._inner := rest |}) /\
  qm_lookup (queue_map w') u = Some lid /\
  (exists sid, socket_map w' !! u = Some sid /\ isOpen w' sid = true).
Proof.
  revert w. induction ks as [|u0 ks IH]; intros w H; simpl in H; [discriminate|].
  assert (Eab : aborted w = false)
    by (case_eq (aborted w); intros E; [rewrite E in H; discriminate | reflexivity]).
  rewrite Eab in H.
  (* a recursive call on a world that differs from [w] at most at [lid0] of
     [locks], where it holds a locked lock or an empty queue *)
  assert (Hrec : forall w1 lid0 l1,
            aborted w1 = aborted w -> locks w1 = <[lid0 := l1]> (locks w) ->
            (Lock._locked l1 = true \/ Lock._inner l1 = []) ->
            processQueue_next w1 ks = (w', Some (u, lid, e, ks')) ->
            aborted w = false /\ u ∈ u0 :: ks /\
            (exists rest,
               locks w !! lid = Some {| Lock._locked := false; Lock._inner := e :: rest |} /\
               locks w' !! lid = Some {| Lock._locked := true; Lock._inner := rest |}) /\
            qm_lookup (queue_map w') u = Some lid /\
            (exists sid, socket_map w' !! u = Some sid /\ isOpen w' sid = true)).
  { intros w1 lid0 l1 Hab1 Hl1 Hcase Hw1.
    destruct (IH w1 Hw1) as (_ & Hin & (rest & Hlk & Hlk') & Hq & Hs).
    split; [exact Eab|]. split; [right; exact Hin|]. split; [|auto].
    exists rest. split; [|exact Hlk'].
    rewrite Hl1 in Hlk. destruct (decide (lid = lid0)) as [->|Hne].
    - rewrite lookup_insert_eq in Hlk. injection Hlk as ->. simpl in Hcase.
      destruct Hcase; discriminate.
    - rewrite lookup_insert_ne in Hlk by congruence. exact Hlk. }
  destruct (socket_map w !! u0) as [sid|] eqn:Esm.
  2:{ destruct (IH w H) as (Ha & Hin & Hr & Hq & Hs). split; [first [reflexivity | exact Ha]|].
      split; [right; exact Hin|]. auto. }
  destruct (qm_lookup (queue_map w) u0) as [lid0|] eqn:Eq.
  2:{ destruct (IH w H) as (Ha & Hin & Hr & Hq & Hs). split; [first [reflexivity | exact Ha]|].
      split; [right; exact Hin|]. auto. }
  destruct (locks w !! lid0) as [l|] eqn:El.
  2:{ destruct (IH w H) as (Ha & Hin & Hr & Hq & Hs). split; [first [reflexivity | exact Ha]|].
      split; [right; exact Hin|]. auto. }
  unfold Lock.isLocked in H. destruct (Lock._locked l) eqn:Elk.
  { destruct (IH w H) as (Ha & Hin & Hr & Hq & Hs). split; [first [reflexivity | exact Ha]|].
    split; [right; exact Hin|]. auto. }
  unfold Lock.lock, Lock.set in H. rewrite Elk in H. simpl in H.
  destruct (isOpen _ sid) eqn:Eo; simpl in H.
  2:{ refine (Hrec _ lid0 {| Lock._locked := true; Lock._inner := Lock._inner l |}
                _ _ _ H); [reflexivity | reflexivity | left; reflexivity]. }
  destruct (Lock._inner l) as [|x rest] eqn:Ein.
  { refine (Hrec _ lid0 {| Lock._locked := false; Lock._inner := [] |} _ _ _ H);
      [reflexivity | | right; reflexivity].
    simpl. rewrite insert_insert_eq. reflexivity. }
  injection H as <- <- <- <- <-.
  split; [exact Eab|]. split; [left|].
  split.
  - exists rest. split.
    + rewrite El. destruct l as [lk inn]. simpl in Elk, Ein. subst. reflexivity.
    + simpl. apply lookup_insert_eq.
  - split; [exact Eq|]. exists sid. split; [exact Esm|]. exact Eo.
Qed.

End ProcessQueueFacts.


Module LockInvariantFacts.
Import Close Frame Gateway Dispatcher Invariants.

Lemma keeps_locked_refl (w : World) : keeps_locked w w.
Proof. intros lid l H Hl. eauto. Qed.

Lemma keeps_locked_trans (w1 w2 w3 : World) :
  keeps_locked w1 w2 -> keeps_locked w2 w3 -> keeps_locked w1 w3.
Proof.
  intros H12 H23 lid l H Hl. destruct (H12 lid l H Hl) as (l2 & H2 & Hl2). eauto.
Qed.

Lemma keeps_locked_same (w w1 : World) :
  locks w1 = locks w -> keeps_locked w w1.
Proof. intros E lid l H Hl. rewrite E. eauto. Qed.

Lemma fresh_same (w w1 : World) :
  locks w1 = locks w -> next_lock w1 = next_lock w -> locks_fresh w -> locks_fresh w1.
Proof. intros E N F k Hk. rewrite N. apply F. rewrite <- E. exact Hk. Qed.

(** Replacing the lock of an id that holds an unlocked lock. *)
Lemma insert_unlocked (w : World) (k : nat) (l0 l' : Lock.SoftLock (list QueueEntry)) :
  locks w !! k = Some l0 -> Lock._locked l0 = false -> locks_fresh w ->
  keeps_locked w (set_locks w (<[k := l']> (locks w)) (next_lock w)) /\
  locks_fresh (set_locks w (<[k := l']> (locks w)) (next_lock w)).
Proof.
  intros Hk Hu F. split.
  - intros lid l H Hl. simpl. rewrite lookup_insert_ne by congruence. eauto.
  - intros j Hj. simpl in *. destruct (decide (j = k)) as [->|Hne].
    + apply F. rewrite Hk. eauto.
    + rewrite lookup_insert_ne in Hj by congruence. apply F. exact Hj.
Qed.

Lemma update_socket_locks (w : World) (sid : nat) (f : Socket -> Socket) :
  locks (update_socket w sid f) = locks w /\ next_lock (update_socket w sid f) = next_lock w.
Proof. unfold update_socket. destruct (clients w !! sid); split; reflexivity. Qed.

Lemma on_message_locks (w : World) (sid : nat) (data : Buffer) :
  locks_fresh w ->
  locks_fresh (on_message w sid data) /\ keeps_locked w (on_message w sid data).
Proof.
  intros F.
  assert (Hh : locks_fresh (snd (clientSocketMessageHandler w sid data)) /\
               keeps_locked w (snd (clientSocketMessageHandler w sid data))).
  { unfold clientSocketMessageHandler.
    destruct (getUserIdFromSocketOrThrow w sid) as [err|u]; simpl;
      [split; [exact F | apply keeps_locked_refl]|].
    destruct (negb (isReady w sid)); simpl.
    { unfold closeWithError. destruct (update_socket_locks w sid
        (close_sock PolicyViolation {| cr_error := "not ready"; cr_code := NotReady |}))
        as [E N].
      split; [apply (fresh_same w); auto | apply keeps_locked_same; exact E]. }
    assert (Hg : forall w1 lid, getOrInitQueue w u = (w1, lid) ->
                   locks_fresh w1 /\ keeps_locked w w1 /\ is_Some (locks w1 !! lid) \/
                   locks_fresh w1 /\ keeps_locked w w1 /\ w1 = w).
    { intros w1 lid. unfold getOrInitQueue.
      destruct (qm_lookup (queue_map w) u) as [lid0|]; intros [= <- <-].
      - right. split; [exact F|]. split; [apply keeps_locked_refl | reflexivity].
      - left. split; [|split].
        + intros k Hk. simpl in *. destruct (decide (k = next_lock w)) as [->|Hne]; [lia|].
          rewrite lookup_insert_ne in Hk by congruence. specialize (F k Hk). lia.
        + intros lid l H Hl. simpl. rewrite lookup_insert_ne; [eauto|].
          intros <-. specialize (F (next_lock w) ltac:(rewrite H; eauto)). lia.
        + simpl. rewrite lookup_insert_eq. eauto. }
    destruct (getOrInitQueue w u) as [w1 lid] eqn:Eg.
    assert (Hg1 : locks_fresh w1 /\ keeps_locked w w1)
      by (destruct (Hg w1 lid eq_refl) as [(? & ? & _)|(? & ? & _)]; auto).
    destruct Hg1 as [F1 K1].
    destruct (newQueueEntry data) as [err|entry]; simpl; [auto|].
    unfold enqueue. destruct (locks w1 !! lid) as [l|] eqn:El; [|auto].
    split.
    - intros k Hk. simpl in *. destruct (decide (k = lid)) as [->|Hne].
      + apply F1. rewrite El. eauto.
      + rewrite lookup_insert_ne in Hk by congruence. apply F1. exact Hk.
    - eapply keeps_locked_trans; [exact K1|].
      intros lid' l' H Hl. simpl. destruct (decide (lid' = lid)) as [->|Hne].
      + rewrite lookup_insert_eq. eexists. split; [reflexivity|]. simpl.
        rewrite El in H. injection H as ->. exact Hl.
      + rewrite lookup_insert_ne by congruence. eauto. }
  unfold on_message. destruct (clientSocketMessageHandler w sid data) as [[err|] w1];
    simpl in Hh; [|exact Hh].
  destruct Hh as [F1 K1]. unfold process_fault, shutdown. simpl.
  split; [apply (fresh_same w1); auto|].
  eapply keeps_locked_trans; [exact K1|]. apply keeps_locked_same. reflexivity.
Qed.

(** One resumption of [processQueue]: ids and locked locks kept; a yield
    takes a lock that was unlocked and leaves it locked. *)
Lemma processQueue_next_locks (w : World) (ks : list UserId) :
  locks_fresh w ->
  locks_fresh (fst (processQueue_next w ks)) /\
  keeps_locked w (fst (processQueue_next w ks)) /\
  (forall u lid e ks', snd (processQueue_next w ks) = Some (u, lid, e, ks') ->
     (exists l, locks w !! lid = Some l /\ Lock._locked l = false) /\
     (exists l, locks (fst (processQueue_next w ks)) !! lid = Some l /\ Lock._locked l = true)).
Proof.
  revert w. induction ks as [|u0 ks IH]; intros w F; simpl.
  { split; [exact F|]. split; [apply keeps_locked_refl|]. intros; discriminate. }
  destruct (aborted w); simpl.
  { split; [exact F|]. split; [apply keeps_locked_refl|]. intros; discriminate. }
  assert (Hrec : forall w1, locks_fresh w1 -> keeps_locked w w1 ->
            (forall lid, (exists l, locks w1 !! lid = Some l /\ Lock._locked l = false) ->
                         (exists l, locks w !! lid = Some l /\ Lock._locked l = false)) ->
            locks_fresh (fst (processQueue_next w1 ks)) /\
            keeps_locked w (fst (processQueue_next w1 ks)) /\
            (forall u lid e ks', snd (processQueue_next w1 ks) = Some (u, lid, e, ks') ->
               (exists l, locks w !! lid = Some l /\ Lock._locked l = false) /\
               (exists l, locks (fst (processQueue_next w1 ks)) !! lid = Some l /\
                          Lock._locked l = true))).
  { intros w1 F1 K1 B1. destruct (IH w1 F1) as (F2 & K2 & Y2).
    split; [exact F2|]. split; [eapply keeps_locked_trans; eauto|].
    intros u lid e ks' Hy. destruct (Y2 u lid e ks' Hy) as [Hu Hl]. split; [|exact Hl].
    apply B1. exact Hu. }
  destruct (socket_map w !! u0) as [sid|]; [|apply Hrec; auto using keeps_locked_refl].
  destruct (qm_lookup (queue_map w) u0) as [lid0|]; [|apply Hrec; auto using keeps_locked_refl].
  destruct (locks w !! lid0) as [l|] eqn:El; [|apply Hrec; auto using keeps_locked_refl].
  unfold Lock.isLocked. destruct (Lock._locked l) eqn:Elk;
    [apply Hrec; auto using keeps_locked_refl|].
  unfold Lock.lock, Lock.set. rewrite Elk. simpl.
  set (w1 := set_locks w (<[lid0 := {| Lock._locked := true; Lock._inner := Lock._inner l |}]>
                           (locks w)) (next_lock w)).
  destruct (insert_unlocked w lid0 l {| Lock._locked := true; Lock._inner := Lock._inner l |}
              El Elk F) as [K1 F1].
  assert (B1 : forall lid, (exists l', locks w1 !! lid = Some l' /\ Lock._locked l' = false) ->
                 (exists l', locks w !! lid = Some l' /\ Lock._locked l' = false)).
  { intros lid (l' & H & Hl'). simpl in H. destruct (decide (lid = lid0)) as [->|Hne].
    - rewrite lookup_insert_eq in H. injection H as <-. discriminate.
    - rewrite lookup_insert_ne in H by congruence. eauto. }
  destruct (negb (isOpen w1 sid)).
  { apply Hrec; [exact F1 | exact K1 | exact B1]. }
  destruct (Lock._inner l) as [|x rest] eqn:Ein; simpl.
  - assert (E2 : <[lid0 := {| Lock._locked := false; Lock._inner := [] |}]> (locks w1)
                 = <[lid0 := {| Lock._locked := false; Lock._inner := [] |}]> (locks w))
      by (simpl; apply insert_insert_eq).
    apply Hrec.
    + intros k Hk. simpl in Hk. rewrite insert_insert_eq in Hk. apply F1. simpl.
      destruct (decide (k = lid0)) as [->|Hne]; [rewrite lookup_insert_eq; eauto|].
      rewrite lookup_insert_ne in * by congruence. exact Hk.
    + intros lid l' H Hl. simpl. rewrite insert_insert_eq.
      rewrite lookup_insert_ne by congruence. eauto.
    + intros lid (l' & H & Hl'). simpl in H. rewrite insert_insert_eq in H.
      destruct (decide (lid = lid0)) as [->|Hne]; [eauto|].
      rewrite lookup_insert_ne in H by congruence. eauto.
  - split; [|split].
    + intros k Hk. simpl in Hk. rewrite insert_insert_eq in Hk. apply F1. simpl.
      destruct (decide (k = lid0)) as [->|Hne]; [rewrite lookup_insert_eq; eauto|].
      rewrite lookup_insert_ne in * by congruence. exact Hk.
    + intros lid l' H Hl. simpl. rewrite insert_insert_eq.
      rewrite lookup_insert_ne by congruence. eauto.
    + intros u lid e ks' [= <- <- <- <-]. split; [eauto|].
      simpl. rewrite lookup_insert_eq. eexists. split; reflexivity.
Qed.

Lemma map_delete {A B} (f : A -> B) (l : list A) (i : nat) :
  map f (delete i l) = delete i (map f l).
Proof.
  revert i. induction l as [|x l IH]; intros [|i]; simpl; auto. f_equal. apply IH.
Qed.

Lemma NoDup_map_delete {A B} (f : A -> B) (l : list A) (i : nat) :
  NoDup (map f l) -> NoDup (map f (delete i l)).
Proof.
  intros H. rewrite map_delete. eapply sublist_NoDup; [exact H|]. apply sublist_delete.
Qed.

Lemma lookup_delete_in {A} (l : list A) (i : nat) (x : A) :
  x ∈ delete i l -> exists j, j <> i /\ l !! j = Some x.
Proof.
  intros Hx. apply list_elem_of_lookup in Hx as [j Hj].
  destruct (decide (j < i)%nat) as [Hlt|Hge].
  - exists j. split; [lia|]. rewrite list_lookup_delete_lt in Hj by exact Hlt. exact Hj.
  - exists (S j). split; [lia|]. rewrite list_lookup_delete_ge in Hj by lia. exact Hj.
Qed.

(** One step of the dispatcher keeps fresh ids, and the in-flight tasks
    holding distinct locked SoftLocks. *)
Lemma dstep_locks (maxConcurrent : nat) (race_at_once : bool) (s s' : DState) (ev : Event) :
  locks_fresh (dw s) -> NoDup (map snd (dflight s)) ->
  (forall n lid, (n, lid) ∈ dflight s ->
     exists l, locks (dw s) !! lid = Some l /\ Lock._locked l = true) ->
  dstep maxConcurrent race_at_once s ev = Some s' ->
  locks_fresh (dw s') /\ NoDup (map snd (dflight s')) /\
  forall n lid, (n, lid) ∈ dflight s' ->
    exists l, locks (dw s') !! lid = Some l /\ Lock._locked l = true.
Proof.
  intros F Hnd Hheld Hstep.
  destruct ev as [| n | sid data |]; simpl in Hstep.
  - (* the runner *)
    unfold runner_step in Hstep.
    destruct (dphase s) as [| ks | ks |]; [| | |discriminate].
    + destruct (aborted (dw s)); injection Hstep as <-; simpl; auto.
    + destruct (processQueue_next_locks (dw s) ks F) as (F1 & K1 & Y1).
      destruct (processQueue_next (dw s) ks) as [w1 [[[[u lid] e] ks']|]] eqn:Ep;
        simpl in F1, K1, Y1; injection Hstep as <-; simpl.
      * destruct (Y1 u lid e ks' eq_refl) as [(l0 & Hl0 & Hu0) Hlk].
        split; [exact F1|]. split.
        -- rewrite map_app. simpl. apply NoDup_app. split; [exact Hnd|].
           split; [|apply NoDup_singleton].
           intros x Hx Hx'. apply list_elem_of_singleton in Hx'. subst x.
           apply list_elem_of_lookup in Hx as [i Hi].
           rewrite list_lookup_fmap in Hi.
           destruct (dflight s !! i) as [[m lid']|] eqn:Ei; [|discriminate].
           simpl in Hi. injection Hi as ->.
           destruct (Hheld m lid (list_elem_of_lookup_2 _ _ _ Ei)) as (l1 & H1 & Hl1).
           congruence.
        -- intros m lid' Hin. apply elem_of_app in Hin as [Hin|Hin].
           ++ destruct (Hheld m lid' Hin) as (l1 & H1 & Hl1). eapply K1; eauto.
           ++ apply list_elem_of_singleton in Hin. injection Hin as -> ->. exact Hlk.
      * split; [exact F1|]. split; [exact Hnd|].
        intros m lid' Hin. destruct (Hheld m lid' Hin) as (l1 & H1 & Hl1). eapply K1; eauto.
    + destruct race_at_once; [injection Hstep as <-; simpl; auto|].
      destruct (aborted (dw s)); [injection Hstep as <-; simpl; auto|].
      destruct (existsb _ _); [injection Hstep as <-; simpl; auto | discriminate].
  - (* a task completes *)
    unfold task_done in Hstep.
    destruct (list_find (fun t => t.1 = n) (dflight s)) as [[i [n' lid]]|] eqn:Ef;
      [|discriminate].
    injection Hstep as <-. simpl.
    apply list_find_Some in Ef as (Hi & _ & _).
    assert (Hnd' : NoDup (map snd (delete i (dflight s)))).
    { apply NoDup_map_delete. exact Hnd. }
    assert (Hother : forall m lid', (m, lid') ∈ delete i (dflight s) -> lid' <> lid).
    { intros m lid' Hin ->. apply lookup_delete_in in Hin as (j & Hji & Hj).
      apply Hji. eapply (NoDup_lookup (map snd (dflight s))); [exact Hnd| |];
        rewrite list_lookup_fmap; [rewrite Hj | rewrite Hi]; reflexivity. }
    destruct (locks (dw s) !! lid) as [l|] eqn:El; simpl.
    + split; [|split; [exact Hnd'|]].
      * intros k Hk. simpl in Hk. apply F. destruct (decide (k = lid)) as [->|Hne].
        -- rewrite El. eauto.
        -- rewrite lookup_insert_ne in Hk by congruence. exact Hk.
      * intros m lid' Hin. specialize (Hother m lid' Hin).
        apply lookup_delete_in in Hin as (j & _ & Hj).
        destruct (Hheld m lid' (list_elem_of_lookup_2 _ _ _ Hj)) as (l1 & H1 & Hl1).
        rewrite lookup_insert_ne by congruence. eauto.
    + split; [exact F|]. split; [exact Hnd'|].
      intros m lid' Hin. apply lookup_delete_in in Hin as (j & _ & Hj).
      exact (Hheld m lid' (list_elem_of_lookup_2 _ _ _ Hj)).
  - (* a frame arrives *)
    injection Hstep as <-. simpl.
    destruct (on_message_locks (dw s) sid data F) as [F1 K1].
    split; [exact F1|]. split; [exact Hnd|].
    intros m lid' Hin. destruct (Hheld m lid' Hin) as (l1 & H1 & Hl1). eapply K1; eauto.
  - (* shutdown *)
    injection Hstep as <-. simpl. split; [apply (fresh_same (dw s)); auto|].
    split; [exact Hnd|]. exact Hheld.
Qed.

Lemma same_locks_trans (w1 w2 w3 : World) :
  locks w2 = locks w1 /\ next_lock w2 = next_lock w1 ->
  locks w3 = locks w2 /\ next_lock w3 = next_lock w2 ->
  locks w3 = locks w1 /\ next_lock w3 = next_lock w1.
Proof. intros [E1 N1] [E2 N2]. split; congruence. Qed.

Lemma closeWithError_locks (w : World) (sid : nat) (code : WsCloseCode) (r : CloseReasonObj) :
  locks (closeWithError w sid code r) = locks w /\
  next_lock (closeWithError w sid code r) = next_lock w.
Proof. apply update_socket_locks. Qed.

Lemma process_fault_locks (w : World) :
  locks (process_fault w) = locks w /\ next_lock (process_fault w) = next_lock w.
Proof. split; reflexivity. Qed.

Lemma sendData_locks (w : World) (sid : nat) (data : JsonObj) :
  locks (snd (sendData w sid data)) = locks w /\
  next_lock (snd (sendData w sid data)) = next_lock w.
Proof.
  unfold sendData. destruct (isOpen w sid); simpl;
    [apply update_socket_locks | split; reflexivity].
Qed.

Lemma registerSocketForUserId_locks (w : World) (sid : nat) (w' : World) :
  registerSocketForUserId w sid = inr w' -> locks w' = locks w /\ next_lock w' = next_lock w.
Proof.
  unfold registerSocketForUserId.
  destruct (getUserIdFromSocketOrThrow w sid) as [e|u]; [discriminate|].
  intros [= <-]. cbn [locks next_lock set_socket_map].
  destruct (socket_map w !! u); [apply closeWithError_locks | split; reflexivity].
Qed.

Lemma clientSocketCloseHandler_locks (w : World) (sid : nat) (w' : World) :
  clientSocketCloseHandler w sid = inr w' -> locks w' = locks w /\ next_lock w' = next_lock w.
Proof.
  unfold clientSocketCloseHandler.
  destruct (getUserIdFromSocketOrThrow w sid) as [e|u]; [discriminate|].
  intros [= <-]. split; reflexivity.
Qed.

Lemma validateUsageRemaining_locks (w : World) (sid : nat) (call : StoreCall) :
  locks (snd (validateUsageRemaining w sid call)) = locks w /\
  next_lock (snd (validateUsageRemaining w sid call)) = next_lock w.
Proof.
  unfold validateUsageRemaining.
  destruct (getUserIdFromSocketOrThrow w sid) as [e|u]; simpl; [split; reflexivity|].
  destruct call; simpl; [|split; reflexivity].
  destruct (_ <=? 0); simpl; [apply closeWithError_locks|].
  eapply same_locks_trans; [apply (update_socket_locks w sid (with_ready true)) |].
  apply sendData_locks.
Qed.

Lemma handleConnection_locks (w : World) (sid : nat) (user : option UserId) (call : StoreCall) :
  locks (handleConnection w sid user call) = locks w /\
  next_lock (handleConnection w sid user call) = next_lock w.
Proof.
  unfold handleConnection.
  pose proof (update_socket_locks w sid (with_user user)) as H0.
  set (w0 := update_socket w sid (with_user user)) in *.
  destruct user as [u|]; [|eapply same_locks_trans; [exact H0 | apply closeWithError_locks]].
  destruct (registerSocketForUserId w0 sid) as [e|w1] eqn:Er;
    [eapply same_locks_trans; [exact H0 | apply process_fault_locks]|].
  pose proof (registerSocketForUserId_locks w0 sid w1 Er) as H1.
  pose proof (validateUsageRemaining_locks w1 sid call) as H2.
  destruct (validateUsageRemaining w1 sid call) as [[e|] w2]; simpl in H2;
    (eapply same_locks_trans; [exact H0 | eapply same_locks_trans; [exact H1|]]);
    [eapply same_locks_trans; [exact H2 | apply process_fault_locks] | exact H2].
Qed.

Lemma handleTranscribeError_locks (w : World) (sid : nat) (err : Processing.ErrObj) :
  locks (Processing.handleTranscribeError w sid err) = locks w /\
  next_lock (Processing.handleTranscribeError w sid err) = next_lock w.
Proof.
  destruct err; simpl; first [apply closeWithError_locks | split; reflexivity].
Qed.

Lemma processTranscribe_resume_locks (w : World) (sid : nat) (e : QueueEntry)
    (settled : Processing.ErrObj + Transcribe.TranscribeResponse) :
  locks (Processing.processTranscribe_resume w sid e settled) = locks w /\
  next_lock (Processing.processTranscribe_resume w sid e settled) = next_lock w.
Proof.
  unfold Processing.processTranscribe_resume.
  destruct (isOpen w sid) eqn:Eo.
  2:{ destruct settled; simpl; rewrite ?Eo; simpl; split; reflexivity. }
  destruct settled as [err|r]; simpl; rewrite ?Eo; simpl;
    [apply handleTranscribeError_locks|].
  pose proof (sendData_locks w sid (reply_obj e r)) as Hs.
  destruct (sendData w sid (reply_obj e r)) as [[err|] w1]; simpl in Hs;
    rewrite ?Eo; simpl; [apply handleTranscribeError_locks|].
  destruct (_ <=? 0); [|exact Hs].
  eapply same_locks_trans; [exact Hs | apply closeWithError_locks].
Qed.

Lemma socket_close_locks (w : World) (sid : nat) (w' : World) :
  Environment.socket_close w sid = Some w' -> locks w' = locks w /\ next_lock w' = next_lock w.
Proof.
  unfold Environment.socket_close. destruct (clients w !! sid) as [s|]; [|discriminate].
  destruct (decide _); [discriminate|].
  pose proof (update_socket_locks w sid (Environment.with_state CLOSED)) as H1.
  destruct (sock_user s); [|intros [= <-]; exact H1].
  destruct (clientSocketCloseHandler _ sid) as [e|w2] eqn:Ec; intros [= <-].
  - eapply same_locks_trans; [exact H1 | apply process_fault_locks].
  - eapply same_locks_trans; [exact H1 | eapply clientSocketCloseHandler_locks; exact Ec].
Qed.

Lemma connection_locks (w : World) (sid : nat) (user : option UserId) (call : StoreCall)
    (w' : World) :
  Environment.connection w sid user call = inl w' ->
  locks w' = locks w /\ next_lock w' = next_lock w.
Proof.
  unfold Environment.connection. destruct (aborted w); [discriminate|].
  destruct (clients w !! sid); [discriminate|]. intros [= <-].
  exact (handleConnection_locks (set_clients w (<[sid := new_socket]> (clients w))) sid user call).
Qed.

(** A socket closing, a connection, a usage update or the rest of a task
    leaves the lock heap and [next_lock] as they are. *)
Lemma env_step_locks (w : World) (ev : Environment.EnvEvent) (w' : World) :
  Environment.env_step w ev = Some w' -> locks w' = locks w /\ next_lock w' = next_lock w.
Proof.
  destruct ev as [sid | sid user call | u used | sid e settled]; simpl.
  - apply socket_close_locks.
  - destruct (Environment.connection w sid user call) as [w1|] eqn:Ec; [|discriminate].
    intros [= <-]. eapply connection_locks. exact Ec.
  - intros [= <-]. split; reflexivity.
  - intros [= <-]. apply processTranscribe_resume_locks.
Qed.

Lemma full_run_reach (maxConcurrent : nat) (race_at_once : bool) (s0 : DState)
    (evs : list Environment.FullEvent) (s s' : DState) :
  Environment.full_reach maxConcurrent race_at_once s0 s ->
  Environment.full_run maxConcurrent race_at_once s evs = Some s' ->
  Environment.full_reach maxConcurrent race_at_once s0 s'.
Proof.
  revert s. induction evs as [|ev evs IH]; intros s Hr; simpl.
  - intros [= <-]. exact Hr.
  - destruct (Environment.full_step maxConcurrent race_at_once s ev) as [s1|] eqn:Es;
      [|discriminate].
    apply IH. eapply Environment.full_next; [exact Hr | exact Es].
Qed.

(** X18: in every state reached from a lock heap with fresh ids, through any
    interleaving of dispatcher steps, socket closes, new connections, usage
    updates and the rest of started tasks, the tasks started and not
    completed hold pairwise distinct SoftLocks, each of them locked. *)
Theorem inflight_locks_held (maxConcurrent : nat) (race_at_once : bool) (w0 : World)
    (s : DState) :
  locks_fresh w0 ->
  Environment.full_reach maxConcurrent race_at_once (runner_init w0) s ->
  NoDup (map snd (dflight s)) /\
  forall n lid, (n, lid) ∈ dflight s ->
    exists l, locks (dw s) !! lid = Some l /\ Lock._locked l = true.
Proof.
  intros F0 Hr.
  enough (locks_fresh (dw s) /\ NoDup (map snd (dflight s)) /\
          forall n lid, (n, lid) ∈ dflight s ->
            exists l, locks (dw s) !! lid = Some l /\ Lock._locked l = true) by tauto.
  induction Hr as [|s ev s' Hr IH Hstep].
  { simpl. split; [exact F0|]. split; [constructor|]. intros n lid H. inversion H. }
  destruct IH as (F & Hnd & Hheld).
  destruct ev as [ev|ev]; simpl in Hstep.
  - exact (dstep_locks maxConcurrent race_at_once s s' ev F Hnd Hheld Hstep).
  - destruct (Environment.env_step (dw s) ev) as [w'|] eqn:Ee; [|discriminate].
    injection Hstep as <-. simpl.
    destruct (env_step_locks (dw s) ev w' Ee) as [E N].
    split; [apply (fresh_same (dw s)); auto|]. split; [exact Hnd|].
    intros n lid Hin. rewrite E. exact (Hheld n lid Hin).
Qed.

End LockInvariantFacts.

(* ------------------------------------------------------------------ *)
(** ** Witnesses *)

Module ExtraWitnesses.
Import Close Frame Gateway Dispatcher Processing Scenarios Samples.

Lemma wrap_all_frames_witness :
  (0 <= 0 /\ 0 + Z.of_nat (length [[7]; [8; 9]]) <= 4294967295) /\
  (Counter._lastId (fst (Counter.wrap_all (Counter.newBufferCounter 0) [[7]; [8; 9]]))
     = 0 + Z.of_nat (length [[7]; [8; 9]]) /\
   forall i p, [[7]; [8; 9]] !! i = Some p ->
     exists f, snd (Counter.wrap_all (Counter.newBufferCounter 0) [[7]; [8; 9]]) !! i
               = Some (inr f) /\ getIdFromBuffer f = inr (0 + 1 + Z.of_nat i, p)).
Proof. split; [simpl; lia | apply (CounterFacts.wrap_all_frames 0 [[7]; [8; 9]]); simpl; lia]. Defined.


Lemma queue_search_misses_pending_witness :
  (length [1; 2; 3]%nat <= 1024)%nat /\
  exists q, QueueSearch.pq_exec Queues.pq_new (map Queues.Enqueue [1; 2; 3]%nat) = inr q /\
    QueueSearch.pq_filter q Nat.even = [] /\
    QueueSearch.pq_findIndex q (fun _ => true) = (-1)%Z /\
    QueueSearch.aq_filter (QueueSearch.aq_exec [] (map Queues.Enqueue [1; 2; 3]%nat)) Nat.even
    = List.filter Nat.even [1; 2; 3]%nat.
Proof.
  split; [simpl; lia | apply (SearchFacts.queue_search_misses_pending [1; 2; 3]%nat); simpl; lia].
Defined.

Lemma queue_search_sees_dequeued_witness :
  (length [2; 3]%nat < 1024)%nat /\
  exists q, QueueSearch.pq_exec Queues.pq_new
              (map Queues.Enqueue [1; 2; 3]%nat ++ [Queues.Dequeue]) = inr q /\
    QueueSearch.pq_filter q Nat.even = List.filter Nat.even [1; 2; 3]%nat /\
    QueueSearch.aq_filter (QueueSearch.aq_exec [] (map Queues.Enqueue [1; 2; 3]%nat
                                                   ++ [Queues.Dequeue])) Nat.even
    = List.filter Nat.even [2; 3]%nat.
Proof.
  split; [simpl; lia | apply (SearchFacts.queue_search_sees_dequeued 1%nat [2; 3]%nat); simpl; lia].
Defined.

Lemma onAbort_fires_once_witness :
  let st := Abort.mkA false [Abort.FHandler 0] (<[0%nat := Abort.Pending]> ∅) [] 1 in
  let st1 := Abort.addEventListener st (Abort.FCallback 5) in
  (Abort.a_aborted st = false /\ NoDup (Abort.a_listeners st) /\
   Abort.onAbort st 5 false = inr (st1, Some (Abort.FCallback 5))) /\
  (Abort.count_calls 5 st1 = Abort.count_calls 5 st /\
   Abort.count_calls 5 (Abort.abort st1) = S (Abort.count_calls 5 st) /\
   Abort.count_calls 5 (Abort.abort (Abort.abort st1)) = S (Abort.count_calls 5 st) /\
   Abort.count_calls 5 (Abort.abort (Abort.cleanup st1 (Some (Abort.FCallback 5))))
   = Abort.count_calls 5 st).
Proof.
  intros st st1. split.
  - split; [reflexivity|]. split; [apply NoDup_singleton | reflexivity].
  - apply (AbortFacts.onAbort_fires_once st st1 5 false (Some (Abort.FCallback 5)));
      [reflexivity | apply NoDup_singleton | reflexivity].
Defined.

Lemma rejectOnAbort_promise_witness :
  let st := Abort.mkA false [Abort.FCallback 5] ∅ [] 0 in
  let st1 := Abort.addEventListener
               (Abort.mkA false [Abort.FCallback 5] (<[0%nat := Abort.Pending]> ∅) [] 1)
               (Abort.FHandler 0) in
  let h := {| Abort.h_promise := 0; Abort.h_cancel := Abort.CancelListener true 0 |} in
  (Abort.a_aborted st = false /\ Abort.rejectOnAbort st false true = inr (st1, h)) /\
  (Abort.a_promises st1 !! Abort.h_promise h = Some Abort.Pending /\
   Abort.a_promises (Abort.abort st1) !! Abort.h_promise h = Some (Abort.Rejected "aborted") /\
   Abort.a_promises (Abort.abort (Abort.cancel st1 h)) !! Abort.h_promise h
   = Some Abort.Resolved).
Proof.
  intros st st1 h. split; [split; reflexivity|].
  apply (AbortFacts.rejectOnAbort_promise st st1 false true h); reflexivity.
Defined.

Lemma registerSocketForUserId_replaces_witness :
  (clients replace_world !! 1%nat = Some (ready_socket "1") /\
   sock_user (ready_socket "1") = Some "1") /\
  exists w', registerSocketForUserId replace_world 1 = inr w' /\
    socket_map w' = <["1" := 1%nat]> (socket_map replace_world) /\
    (forall k, socket_map replace_world !! "1" <> Some k ->
       clients w' !! k = clients replace_world !! k) /\
    (forall old so, socket_map replace_world !! "1" = Some old ->
       clients replace_world !! old = Some so ->
       clients w' !! old
       = Some (close_sock PolicyViolation
                 {| cr_error := "Connection replaced"; cr_code := ConnectionReplacedError |} so)).
Proof.
  split; [split; reflexivity|].
  apply (ConnectionFacts.registerSocketForUserId_replaces replace_world 1 (ready_socket "1") "1");
    reflexivity.
Defined.

Lemma handleConnection_unauthenticated_witness :
  clients c4_world !! 0%nat = Some new_socket /\
  (clients (handleConnection c4_world 0 None StoreResolves) !! 0%nat
   = Some (close_sock PolicyViolation {| cr_error := "Unauthorized"; cr_code := Unauthorized |}
             (with_user None new_socket)) /\
   socket_map (handleConnection c4_world 0 None StoreResolves) = socket_map c4_world /\
   queue_map (handleConnection c4_world 0 None StoreResolves) = queue_map c4_world /\
   aborted (handleConnection c4_world 0 None StoreResolves) = aborted c4_world).
Proof.
  split; [reflexivity|].
  apply (ConnectionFacts.handleConnection_unauthenticated c4_world 0 new_socket StoreResolves). reflexivity.
Defined.

Lemma handleConnection_admission_witness :
  (clients c2_world0 !! 0%nat = Some new_socket /\ sock_state new_socket = OPEN /\
   socket_map c2_world0 !! "1" <> Some 0%nat) /\
  (socket_map (handleConnection c2_world0 0 (Some "1") StoreResolves) !! "1" = Some 0%nat /\
   aborted (handleConnection c2_world0 0 (Some "1") StoreResolves) = aborted c2_world0 /\
   clients (handleConnection c2_world0 0 (Some "1") StoreResolves) !! 0%nat
   = Some (if Usage.remainingMs (Usage.getUsage (usage c2_world0) "1") <=? 0
           then close_sock PolicyViolation
                  {| cr_error := "Exceeded allocated usage";
                     cr_code := ExceededAllocatedUsageError |} (with_user (Some "1") new_socket)
           else with_sent ready_msg (with_ready true (with_user (Some "1") new_socket)))).
Proof.
  split; [split; [reflexivity | split; [reflexivity | vm_compute; discriminate]]|].
  apply (ConnectionFacts.handleConnection_admission c2_world0 0 new_socket "1");
    [reflexivity | reflexivity | vm_compute; discriminate].
Defined.

Lemma message_before_ready_witness :
  (clients unready_world !! 0%nat = Some (with_user (Some "1") new_socket) /\
   sock_user (with_user (Some "1") new_socket) = Some "1" /\
   sock_ready (with_user (Some "1") new_socket) = false) /\
  exists w', clientSocketMessageHandler unready_world 0 c1_frame = (None, w') /\
    queue_map w' = queue_map unready_world /\ locks w' = locks unready_world /\
    clients w' !! 0%nat
    = Some (close_sock PolicyViolation {| cr_error := "not ready"; cr_code := NotReady |}
              (with_user (Some "1") new_socket)).
Proof.
  split; [split; [reflexivity | split; reflexivity]|].
  apply (MessageFacts.message_before_ready unready_world 0 (with_user (Some "1") new_socket) "1");
    reflexivity.
Defined.

Lemma message_enqueued_witness :
  (clients c3_world !! 0%nat = Some (ready_socket "1") /\
   sock_user (ready_socket "1") = Some "1" /\ sock_ready (ready_socket "1") = true /\
   newQueueEntry c1_frame = inr sample_entry /\
   (forall lid, qm_lookup (queue_map c3_world) "1" = Some lid ->
      is_Some (locks c3_world !! lid))) /\
  exists w' lid l, clientSocketMessageHandler c3_world 0 c1_frame = (None, w') /\
    clients w' = clients c3_world /\
    qm_lookup (queue_map w') "1" = Some lid /\ locks w' !! lid = Some l /\
    Lock._inner l = match qm_lookup (queue_map c3_world) "1" with
                    | Some lid0 => default [] (Lock._inner <$> locks c3_world !! lid0)
                    | None => []
                    end ++ [sample_entry].
Proof.
  assert (Hq : forall lid, qm_lookup (queue_map c3_world) "1" = Some lid ->
                 is_Some (locks c3_world !! lid))
    by (intros lid H; discriminate H).
  split; [split; [reflexivity | split; [reflexivity | split; [reflexivity |
    split; [reflexivity | exact Hq]]]]|].
  apply (MessageFacts.message_enqueued c3_world 0 (ready_socket "1") "1" c1_frame sample_entry);
    [reflexivity | reflexivity | reflexivity | reflexivity | exact Hq].
Defined.

Lemma processTranscribe_reply_witness :
  (clients c3_world !! 0%nat = Some (ready_socket "1") /\ sock_state (ready_socket "1") = OPEN) /\
  (clients (processTranscribe_resume c3_world 0 sample_entry (inr sample_response)) !! 0%nat
   = Some (if Transcribe.usageRemainingMs sample_response <=? 0
           then close_sock PolicyViolation
                  {| cr_error := "Exceeded allocated usage";
                     cr_code := ExceededAllocatedUsageError |}
                  (with_sent (reply_obj sample_entry sample_response) (ready_socket "1"))
           else with_sent (reply_obj sample_entry sample_response) (ready_socket "1")) /\
   (forall k, k <> 0%nat ->
      clients (processTranscribe_resume c3_world 0 sample_entry (inr sample_response)) !! k
      = clients c3_world !! k)).
Proof.
  split; [split; reflexivity|].
  apply (ProcessingFacts.processTranscribe_reply c3_world 0 (ready_socket "1")); reflexivity.
Defined.

Lemma processTranscribe_unaffordable_witness :
  (socket_map low_world !! "1" = Some 0%nat /\
   clients low_world !! 0%nat = Some (ready_socket "1") /\
   sock_state (ready_socket "1") = OPEN /\
   Usage.remainingMs (Usage.getUsage (usage low_world) "1")
     < Transcribe.estimateUsageMs (length (qe_data sample_entry))) /\
  exists w', processTranscribe low_world "1" sample_entry Transcribe.Cancelled = inr w' /\
    usage w' = usage low_world /\
    clients w' !! 0%nat
    = Some (close_sock PolicyViolation
              {| cr_error := "Exceeded allocated usage";
                 cr_code := ExceededAllocatedUsageError |} (ready_socket "1")).
Proof.
  assert (Hlt : Usage.remainingMs (Usage.getUsage (usage low_world) "1")
                < Transcribe.estimateUsageMs (length (qe_data sample_entry)))
    by (vm_compute; reflexivity).
  split; [split; [reflexivity | split; [reflexivity | split; [reflexivity | exact Hlt]]]|].
  apply (ProcessingUsageFacts.processTranscribe_unaffordable low_world "1" sample_entry Transcribe.Cancelled
           0 (ready_socket "1")); [reflexivity | reflexivity | reflexivity | exact Hlt].
Defined.

Lemma processTranscribe_affordable_witness :
  (socket_map c3_world !! "1" = Some 0%nat /\
   clients c3_world !! 0%nat = Some (ready_socket "1") /\
   sock_state (ready_socket "1") = OPEN /\
   (0 < length (qe_data sample_entry))%nat /\
   Transcribe.estimateUsageMs (length (qe_data sample_entry))
     <= Usage.remainingMs (Usage.getUsage (usage c3_world) "1")) /\
  exists w', processTranscribe c3_world "1" sample_entry (Transcribe.Finished "hello" 90)
             = inr w' /\
    usage w' = Usage.updateUsage (usage c3_world) "1"
                 (Transcribe.estimateUsageMs (length (qe_data sample_entry))) /\
    Usage.remainingMs (Usage.getUsage (usage w') "1")
      = Usage.remainingMs (Usage.getUsage (usage c3_world) "1")
        - Transcribe.estimateUsageMs (length (qe_data sample_entry)) /\
    clients w' !! 0%nat
    = Some (let r := {| Transcribe.resp_transcript := "hello";
                        Transcribe.resp_usageUsedMs :=
                          Transcribe.estimateUsageMs (length (qe_data sample_entry));
                        Transcribe.resp_confidence := 90;
                        Transcribe.usageRemainingMs :=
                          Usage.remainingMs (Usage.getUsage (usage c3_world) "1")
                          - Transcribe.estimateUsageMs (length (qe_data sample_entry)) |} in
            if Usage.remainingMs (Usage.getUsage (usage c3_world) "1")
               =? Transcribe.estimateUsageMs (length (qe_data sample_entry))
            then close_sock PolicyViolation
                   {| cr_error := "Exceeded allocated usage";
                      cr_code := ExceededAllocatedUsageError |}
                   (with_sent (reply_obj sample_entry r) (ready_socket "1"))
            else with_sent (reply_obj sample_entry r) (ready_socket "1")).
Proof.
  assert (Hle : Transcribe.estimateUsageMs (length (qe_data sample_entry))
                <= Usage.remainingMs (Usage.getUsage (usage c3_world) "1"))
    by (vm_compute; discriminate).
  assert (Hlen : (0 < length (qe_data sample_entry))%nat) by (simpl; lia).
  split; [split; [reflexivity | split; [reflexivity | split; [reflexivity |
    split; [exact Hlen | exact Hle]]]]|].
  apply (ProcessingUsageFacts.processTranscribe_affordable c3_world "1" sample_entry "hello" 90 0
           (ready_socket "1")); [reflexivity | reflexivity | reflexivity | exact Hlen | exact Hle].
Defined.

Lemma processQueue_next_yield_witness :
  processQueue_next queued_world ["1"]
  = (fst (processQueue_next queued_world ["1"]), Some ("1", 0%nat, sample_entry, [])) /\
  (aborted queued_world = false /\ "1" ∈ ["1"] /\
   (exists rest,
      locks queued_world !! 0%nat
      = Some {| Lock._locked := false; Lock._inner := sample_entry :: rest |} /\
      locks (fst (processQueue_next queued_world ["1"])) !! 0%nat
      = Some {| Lock._locked := true; Lock._inner := rest |}) /\
   qm_lookup (queue_map (fst (processQueue_next queued_world ["1"]))) "1" = Some 0%nat /\
   (exists sid, socket_map (fst (processQueue_next queued_world ["1"])) !! "1" = Some sid /\
                isOpen (fst (processQueue_next queued_world ["1"])) sid = true)).
Proof.
  assert (H : processQueue_next queued_world ["1"]
              = (fst (processQueue_next queued_world ["1"]), Some ("1", 0%nat, sample_entry, [])))
    by (vm_compute; reflexivity).
  split; [exact H|].
  exact (ProcessQueueFacts.processQueue_next_yield queued_world ["1"] _ "1" 0 sample_entry [] H).
Defined.

Lemma processTranscribe_failure_witness :
  (clients c3_world !! 0%nat = Some (ready_socket "1") /\
   sock_state (ready_socket "1") = OPEN) /\
  option_map sock_sent
    (clients (processTranscribe_resume c3_world 0 sample_entry (inl (EError "boom"))) !! 0%nat)
    = Some (sock_sent (ready_socket "1")) /\
  (option_map sock_state
     (clients (processTranscribe_resume c3_world 0 sample_entry (inl (EError "boom"))) !! 0%nat)
     = Some OPEN <-> exists m, EError "boom" = EConnClosed m).
Proof.
  split; [split; reflexivity|].
  apply (proj2 (ProcessingFacts.processTranscribe_failure c3_world 0 sample_entry (EError "boom"))
           (ready_socket "1")); reflexivity.
Defined.

Lemma inflight_locks_held_witness :
  (Invariants.locks_fresh c3_world /\
   Environment.full_reach 5 false (runner_init c3_world) inflight_state) /\
  (map snd (dflight inflight_state) = [0%nat; 1%nat] /\
   socket_map (dw inflight_state) !! "1" = Some 1%nat /\
   NoDup (map snd (dflight inflight_state)) /\
   forall n lid, (n, lid) ∈ dflight inflight_state ->
     exists l, locks (dw inflight_state) !! lid = Some l /\ Lock._locked l = true).
Proof.
  assert (Hf : Invariants.locks_fresh c3_world)
    by (intros k [l Hl]; discriminate Hl).
  assert (Hr : Environment.full_reach 5 false (runner_init c3_world) inflight_state).
  { apply (LockInvariantFacts.full_run_reach 5 false (runner_init c3_world) inflight_events
             (runner_init c3_world)); [apply Environment.full_refl|]. vm_compute. reflexivity. }
  split; [split; [exact Hf | exact Hr]|].
  split; [vm_compute; reflexivity|]. split; [vm_compute; reflexivity|].
  exact (LockInvariantFacts.inflight_locks_held 5 false c3_world inflight_state Hf Hr).
Defined.
End ExtraWitnesses.
